(** * jb-mcp-bridge: the stdio→SSE bridge of [src/bridge.ts]

    A shallow embedding of the bridge's path translator, event stream
    parser, connection manager and request correlator, with the
    properties of its specification stated and proved over it.

    Modelling conventions.
    - A JavaScript string is a [string]: one [ascii] per code unit, for
      code units below 256.  [trim] therefore strips the white space and
      line terminators of that range (9-13, 32 and 160).
    - A regular expression literal is kept as data (a list of [item]s) and
      run by a small backtracking matcher, so that [replace], [match] and
      [test] are the library calls the source makes.
    - Objects used as dictionaries ([arguments], [params]) and the
      [pendingRequests] map are [gmap]s.
    - The fields of [JBStdioSSEBridge] and the parts of the JavaScript
      runtime the class relies on (the timer table and the promises it
      hands to its callers) form one explicit state record; every
      callback of the source is a function on that record.
    - Diagnostic logging ([log]) has no effect on any of this and is left
      out. *)

From Stdlib Require Import ZArith Ascii.
From stdpp Require Import base option list gmap strings pretty.

(** ** Strings *)

Module Str.

(** [s.startsWith(p)] *)
Fixpoint startsWith (p s : string) : bool :=
  match p, s with
  | EmptyString, _ => true
  | String a p', String b s' => if Ascii.eqb a b then startsWith p' s' else false
  | String _ _, EmptyString => false
  end.

(** [s.slice(n)] for a non-negative [n] *)
Fixpoint slice (n : nat) (s : string) : string :=
  match n, s with
  | O, _ => s
  | S n', String _ s' => slice n' s'
  | S _, EmptyString => EmptyString
  end.

(** White space and line terminators, as [String.prototype.trim] sees
    them, among the code units below 256. *)
Definition is_ws (c : ascii) : bool :=
  match c with
  | "009" | "010" | "011" | "012" | "013" | " " | "160" => true
  | _ => false
  end%char.

Definition is_empty (s : string) : bool :=
  match s with EmptyString => true | String _ _ => false end.

Fixpoint trimStart (s : string) : string :=
  match s with
  | EmptyString => EmptyString
  | String c s' => if is_ws c then trimStart s' else s
  end.

Fixpoint trimEnd (s : string) : string :=
  match s with
  | EmptyString => EmptyString
  | String c s' =>
      let r := trimEnd s' in
      if is_ws c && is_empty r then EmptyString else String c r
  end.

(** [s.trim()] *)
Definition trim (s : string) : string := trimEnd (trimStart s).

(** [s.split(sep)] for a one-character separator: never the empty list. *)
Fixpoint split (sep : ascii) (s : string) : list string :=
  match s with
  | EmptyString => [EmptyString]
  | String c s' =>
      match split sep s' with
      | h :: t => if Ascii.eqb c sep then EmptyString :: h :: t else String c h :: t
      | [] => []
      end
  end.

(** [true] when [c] does not occur in [s]. *)
Fixpoint free_of (c : ascii) (s : string) : bool :=
  match s with
  | EmptyString => true
  | String a s' => negb (Ascii.eqb a c) && free_of c s'
  end.

Definition nl : ascii := "010"%char.

End Str.

(** ** Regular expressions

    The fragment the source uses: a sequence of single-character items,
    one-or-more repetitions of a character class (greedy, possibly inside
    a capture group) and the two anchors. *)

Module Regex.

Inductive item :=
| Bos                                      (* ^ *)
| Eos                                      (* $ without the m flag *)
| One (cls : ascii → bool)                 (* a character or a class *)
| Many1 (cls : ascii → bool) (cap : bool). (* cls+ ; [cap]: wrapped in ( ) *)

Definition chr (c : ascii) : ascii → bool := Ascii.eqb c.
Definition nchr (c : ascii) : ascii → bool := fun a => negb (Ascii.eqb a c).
Global Arguments chr c%_char_scope.
Global Arguments nchr c%_char_scope.

(** The result of matching at one position: the captured groups, in
    order, and the input left after the match. *)
Definition mres : Type := list string * string.

(** [many cls k s]: the greedy loop of [cls+] on [s], then the
    continuation [k] on what is left; the longest repetition is tried
    first, shorter ones on failure.  Returns the text [cls+] took. *)
Fixpoint many (cls : ascii → bool) (k : string → option mres) (s : string)
  : option (string * mres) :=
  match s with
  | EmptyString => None
  | String c s' =>
      if cls c then
        match many cls k s' with
        | Some (w, r) => Some (String c w, r)
        | None =>
            match k s' with
            | Some r => Some (String c EmptyString, r)
            | None => None
            end
        end
      else None
  end.

(** [match_here r at0 s]: match the items [r] against a prefix of [s];
    [at0] tells whether [s] starts at index 0 of the subject. *)
Fixpoint match_here (r : list item) (at0 : bool) (s : string) : option mres :=
  match r with
  | [] => Some ([], s)
  | Bos :: r' => if at0 then match_here r' at0 s else None
  | Eos :: r' => if Str.is_empty s then match_here r' at0 s else None
  | One cls :: r' =>
      match s with
      | String c s' => if cls c then match_here r' false s' else None
      | EmptyString => None
      end
  | Many1 cls cap :: r' =>
      match many cls (match_here r' false) s with
      | Some (w, (caps, rest)) => Some (if cap then w :: caps else caps, rest)
      | None => None
      end
  end.

(** A successful search: the text before the match, the groups, the
    text after the match. *)
Record found := Found { before : string; groups : list string; after : string }.

(** [search r at0 s]: the leftmost match of [r] in [s]. *)
Fixpoint search (r : list item) (at0 : bool) (s : string) : option found :=
  match match_here r at0 s with
  | Some (caps, rest) => Some (Found EmptyString caps rest)
  | None =>
      match s with
      | EmptyString => None
      | String c s' =>
          match search r false s' with
          | Some f => Some (Found (String c (before f)) (groups f) (after f))
          | None => None
          end
      end
  end.

(** [r.exec(s)] / [s.match(r)] for a regular expression without flags *)
Definition exec (r : list item) (s : string) : option found := search r true s.

(** [r.test(s)] *)
Definition test (r : list item) (s : string) : bool :=
  match exec r s with Some _ => true | None => false end.

(** [s.replace(r, by)] for a regular expression without the g flag and a
    replacement text without [$] patterns: the first match only. *)
Definition replace (r : list item) (by_ : string) (s : string) : string :=
  match exec r s with
  | Some f => before f +:+ by_ +:+ after f
  | None => s
  end.

End Regex.

(** ** Path translator *)

Import Regex.

(** [/\/@[^/]+\//] *)
Definition re_virtual_workspace : list item :=
  [One (chr "/"); One (chr "@"); Many1 (nchr "/") false; One (chr "/")].

(** [/\/dev\/([^/]+)$/] *)
Definition re_dev_tail : list item :=
  [One (chr "/"); One (chr "d"); One (chr "e"); One (chr "v"); One (chr "/");
   Many1 (nchr "/") true; Eos].

Definition is_letter (c : ascii) : bool :=
  let n := nat_of_ascii c in
  ((65 <=? n)%nat && (n <=? 90)%nat) || ((97 <=? n)%nat && (n <=? 122)%nat).

(** [/^[A-Za-z]:/] *)
Definition re_drive : list item := [Bos; One is_letter; One (chr ":")].

(** The shared first statement of [unixToWslPath] and
    [extractProjectSubfolder]: [x.replace(/\/@[^/]+\//, '/')]. *)
Definition normalize (p : string) : string :=
  replace re_virtual_workspace "/" p.

Definition unixToWslPath (unixPath : string) : string :=
  let normalized := normalize unixPath in
  "//wsl.localhost/Ubuntu" +:+ normalized.

Definition extractProjectSubfolder (projectPath : string) : option string :=
  let normalized := normalize projectPath in
  match exec re_dev_tail normalized with
  | Some f => head (groups f)
  | None => None
  end.

Inductive PathClassification := wsl | unix | windows | relative.

Definition classifyPath (p : string) : PathClassification :=
  if Str.is_empty p then relative
  else if Str.startsWith "//wsl.localhost" p || Str.startsWith "\\wsl.localhost" p then wsl
  else if Str.startsWith "/home/" p || Str.startsWith "/Users/" p || Str.startsWith "/tmp/" p
       then unix
  else if test re_drive p then windows
  else relative.

(** ** Requests

    JSON values as [JSON.parse] produces them.  Numbers are kept as
    integers: no property below computes with them. *)

Local Set Warnings "-register-all".

Inductive jvalue :=
| JNull
| JBool (b : bool)
| JNum (n : Z)
| JStr (s : string)
| JArr (l : list jvalue)
| JObj (m : gmap string jvalue).

(** The identifier of a request or a response: [string | number]. *)
Inductive req_id := IdNum (n : Z) | IdStr (s : string).

Record MCPRequest := {
  jsonrpc : string;
  id : option req_id;
  method : string;
  params : option (gmap string jvalue)
}.

(** JavaScript truthiness of a property read: [None] is [undefined]. *)
Definition truthy (v : option jvalue) : bool :=
  match v with
  | None | Some JNull => false
  | Some (JBool b) => b
  | Some (JNum n) => negb (n =? 0)%Z
  | Some (JStr s) => negb (Str.is_empty s)
  | Some (JArr _) | Some (JObj _) => true
  end.

Fixpoint chars (s : string) : list ascii :=
  match s with
  | EmptyString => []
  | String c s' => c :: chars s'
  end.

(** [{ ...v }]: the own enumerable properties of [v]. *)
Definition spread (v : jvalue) : gmap string jvalue :=
  match v with
  | JObj m => m
  | JArr l => list_to_map (imap (fun i x => (pretty i, x)) l)
  | JStr s => list_to_map (imap (fun i c => (pretty i, JStr (String c EmptyString))) (chars s))
  | JNull | JBool _ | JNum _ => ∅
  end.

Definition relativePathKeys : list string :=
  ["directoryPath"; "filePath"; "pathInProject"; "path";
   "subDirectoryRelativePath"; "directoryToSearch"; "file_path"].

(** The body of the [for] loop of [transformRequest], for one key. *)
Definition prepend_key (projectSubfolder : string)
    (args : gmap string jvalue) (key : string) : gmap string jvalue :=
  match args !! key with
  | Some (JStr val) =>
      if negb (Str.is_empty val)
         && negb (Str.startsWith "/" val)
         && negb (Str.startsWith projectSubfolder val)
      then <[key := JStr (projectSubfolder +:+ "/" +:+ val)]> args
      else args
  | _ => args
  end.

(** The first [if] of [transformRequest]: the subfolder derived, and
    [args] with its [projectPath] rewritten. *)
Definition rewrite_projectPath (args : gmap string jvalue)
  : option string * gmap string jvalue :=
  match args !! "projectPath" with
  | Some (JStr projectPath) =>
      match Str.is_empty projectPath, classifyPath projectPath with
      | false, unix =>
          (extractProjectSubfolder projectPath,
           <["projectPath" := JStr (unixToWslPath projectPath)]> args)
      | _, _ => (None, args)
      end
  | _ => (None, args)
  end.

Definition transformRequest (request : MCPRequest) : MCPRequest :=
  match params request with
  | Some ps =>
      if negb (String.eqb (method request) "tools/call")
         || negb (truthy (ps !! "arguments"))
      then request
      else
        let args := spread (default JNull (ps !! "arguments")) in
        let '(projectSubfolder, args) := rewrite_projectPath args in
        let args :=
          match projectSubfolder with
          | Some t =>
              if Str.is_empty t then args
              else foldl (prepend_key t) args relativePathKeys
          | None => args
          end in
        {| jsonrpc := jsonrpc request; id := id request; method := method request;
           params := Some (<["arguments" := JObj args]> ps) |}
  | None => request
  end.

(** ** Event stream parser *)

(** The two local variables of [processLines]. *)
Record slots := Slots { pendingData : string; pendingEvent : string }.

Definition no_slots : slots := Slots "" "".

Section Parser.
(** What the parser does with a completed pair, on a state [S]: the body
    of [if (pendingData && pendingEvent)] before the slots are cleared. *)
Context {S : Type} (emit : string → string → S → S).

(** One iteration of the [for] loop of [processLines]. *)
Definition line_step (st : slots * S) (line : string) : slots * S :=
  if Str.startsWith "data: " line then
    (Slots (Str.slice 6 line) (pendingEvent st.1), st.2)
  else if Str.startsWith "event: " line then
    let ev := Str.trim (Str.slice 7 line) in
    if negb (Str.is_empty (pendingData st.1)) && negb (Str.is_empty ev)
    then (no_slots, emit ev (pendingData st.1) st.2)
    else (Slots (pendingData st.1) ev, st.2)
  else st.

Definition processLines (lines : list string) (s : S) : S :=
  (foldl line_step (no_slots, s) lines).2.

(** One iteration of the read loop of [connect] with a chunk at hand:
    [buffer] is the loop's local variable, [value] the decoded text of
    the chunk.  ([TextDecoder] in streaming mode keeps an incomplete
    multi-byte sequence for the next chunk, so the decoded texts
    concatenate to the decoding of the whole stream.) *)
Definition read_chunk (buffer value : string) (s : S) : string * S :=
  let buffer := buffer +:+ value in
  let lines := Str.split Str.nl buffer in
  (List.last lines "", processLines (removelast lines) s).

(** The read loop over a sequence of chunks, from the empty buffer. *)
Definition read_loop (chunks : list string) (s : S) : string * S :=
  foldl (fun st value => read_chunk st.1 value st.2) ("", s) chunks.

End Parser.

(** The parser observed: the state is the list of pairs emitted so far,
    as (event, data). *)
Definition record_pair (ev data : string) (tr : list (string * string))
  : list (string * string) := tr ++ [(ev, data)].

Definition emitted_by_lines (lines : list string) : list (string * string) :=
  processLines record_pair lines [].

Definition emitted_by_chunks (chunks : list string) : list (string * string) :=
  (read_loop record_pair chunks []).2.

(** ** The bridge object and the runtime it lives in *)

Global Instance req_id_eq_dec : EqDecision req_id.
Proof. solve_decision. Defined.

Global Instance req_id_countable : Countable req_id.
Proof.
  refine (inj_countable'
            (fun i => match i with IdNum n => inl n | IdStr s => inr s end)
            (fun x => match x with inl n => IdNum n | inr s => IdStr s end) _).
  by intros [].
Defined.

Record MCPResponse := {
  r_id : option req_id;
  r_result : option jvalue;
  r_error : option (Z * string)
}.

(** The [Error] values a caller of [sendRequest] can be failed with. *)
Inductive failure :=
| ConnectionTimeout            (* new Error('Connection timeout') *)
| RequestTimeout               (* new Error('Request timeout (30s)') *)
| TransportError (e : string). (* the rejection reason of [fetch] *)

Inductive outcome := Resolved (r : MCPResponse) | Rejected (e : failure).

(** The arrow functions handed to [setTimeout], with the variables they
    capture. *)
Inductive callback :=
| Reconnect                                  (* in [scheduleReconnect] *)
| RequestExpiry (requestId : req_id) (promise : nat). (* in [sendRequest] *)

Record timer := Timer { callback_of : callback; delay : Z }.

(** An entry of [pendingRequests]: the [resolve] and [reject] closures
    share the variables [timeout] and the promise they complete. *)
Record waiter := Waiter { w_timeout : nat; w_promise : nat }.

(** A POST that [sendRequest] has started: the variables its [catch]
    handler captures, the endpoint it was sent to and its body. *)
Record post := Post {
  post_id : req_id;
  post_timeout : nat;
  post_promise : nat;
  post_endpoint : option string;
  post_body : MCPRequest
}.

Record bridge := Bridge {
  (* the fields of JBStdioSSEBridge *)
  jbMessageEndpoint : option string;
  pendingRequests : gmap req_id waiter;
  isConnecting : bool;
  reconnectTimer : option nat;
  (* the runtime: live timers, the next timer handle, settled promises,
     the next promise, the POSTs started so far *)
  timers : gmap nat timer;
  next_timer : nat;
  promises : gmap nat outcome;
  next_promise : nat;
  posts : list post
}.

Definition set_endpoint (e : option string) (b : bridge) : bridge :=
  Bridge e (pendingRequests b) (isConnecting b) (reconnectTimer b)
         (timers b) (next_timer b) (promises b) (next_promise b) (posts b).

Definition set_pending (m : gmap req_id waiter) (b : bridge) : bridge :=
  Bridge (jbMessageEndpoint b) m (isConnecting b) (reconnectTimer b)
         (timers b) (next_timer b) (promises b) (next_promise b) (posts b).

Definition set_connecting (c : bool) (b : bridge) : bridge :=
  Bridge (jbMessageEndpoint b) (pendingRequests b) c (reconnectTimer b)
         (timers b) (next_timer b) (promises b) (next_promise b) (posts b).

Definition set_reconnectTimer (t : option nat) (b : bridge) : bridge :=
  Bridge (jbMessageEndpoint b) (pendingRequests b) (isConnecting b) t
         (timers b) (next_timer b) (promises b) (next_promise b) (posts b).

(** [setTimeout(cb, ms)]: a fresh handle, the timer live. *)
Definition setTimeout (cb : callback) (ms : Z) (b : bridge) : nat * bridge :=
  (next_timer b,
   Bridge (jbMessageEndpoint b) (pendingRequests b) (isConnecting b) (reconnectTimer b)
          (<[next_timer b := Timer cb ms]> (timers b)) (Datatypes.S (next_timer b))
          (promises b) (next_promise b) (posts b)).

(** [clearTimeout(t)]: nothing happens when [t] is not live. *)
Definition clearTimeout (t : nat) (b : bridge) : bridge :=
  Bridge (jbMessageEndpoint b) (pendingRequests b) (isConnecting b) (reconnectTimer b)
         (delete t (timers b)) (next_timer b) (promises b) (next_promise b) (posts b).

(** [new Promise(...)]: the promise handed to the caller, pending. *)
Definition new_promise (b : bridge) : nat * bridge :=
  (next_promise b,
   Bridge (jbMessageEndpoint b) (pendingRequests b) (isConnecting b) (reconnectTimer b)
          (timers b) (next_timer b) (promises b) (Datatypes.S (next_promise b)) (posts b)).

(** The [resolve] and [reject] functions of a promise: the first call
    settles it, later calls do nothing. *)
Definition settle (p : nat) (o : outcome) (b : bridge) : bridge :=
  match promises b !! p with
  | Some _ => b
  | None =>
      Bridge (jbMessageEndpoint b) (pendingRequests b) (isConnecting b) (reconnectTimer b)
             (timers b) (next_timer b) (<[p := o]> (promises b)) (next_promise b) (posts b)
  end.

(** [fetch(url, { method: 'POST', ... })]: one more POST under way. *)
Definition start_post (c : post) (b : bridge) : bridge :=
  Bridge (jbMessageEndpoint b) (pendingRequests b) (isConnecting b) (reconnectTimer b)
         (timers b) (next_timer b) (promises b) (next_promise b) (posts b ++ [c]).

(** [if (this.jbMessageEndpoint)]: the endpoint is a non-empty string. *)
Definition endpoint_known (endpoint : option string) : bool :=
  match endpoint with
  | Some e => negb (Str.is_empty e)
  | None => false
  end.

(** The state of the promise [waitForConnection] returns; it is rejected
    with [new Error('Connection timeout')]. *)
Inductive wait_outcome := wait_pending | wait_resolved | wait_rejected.

(** The interval callback [check] of [waitForConnection], run with the
    endpoint field and [Date.now()] as it finds them. *)
Definition waitForConnection_check (timeoutMs start : Z)
    (endpoint : option string) (now : Z) : wait_outcome :=
  if endpoint_known endpoint then wait_resolved
  else if (now - start >? timeoutMs)%Z then wait_rejected
  else wait_pending.

(** One run of the interval callback, if the interval has not been
    cleared by an earlier run. *)
Definition wait_step (timeoutMs start : Z)
    (st : wait_outcome) (tick : option string * Z) : wait_outcome :=
  match st with
  | wait_pending => waitForConnection_check timeoutMs start tick.1 tick.2
  | _ => st
  end.

(** [waitForConnection(timeoutMs)]: [endpoint] is the field when the call
    is made, [start] the value of [Date.now()] then, [ticks] what the runs
    of the interval callback find, in order; the interval is cleared by
    the run that settles the promise. *)
Definition waitForConnection (timeoutMs : Z) (endpoint : option string)
    (start : Z) (ticks : list (option string * Z)) : wait_outcome :=
  if endpoint_known endpoint then wait_resolved
  else foldl (wait_step timeoutMs start) wait_pending ticks.

(** A timeout handle is an object, hence truthy: [if (this.reconnectTimer)]
    tests for [null] only. *)
Definition scheduleReconnect (b : bridge) : bridge :=
  let b := match reconnectTimer b with
           | Some t => clearTimeout t b
           | None => b
           end in
  let '(t, b) := setTimeout Reconnect 2000 b in
  set_reconnectTimer (Some t) b.

(** [pending.resolve(r)] and [pending.reject(e)] of a registered waiter. *)
Definition waiter_resolve (w : waiter) (r : MCPResponse) (b : bridge) : bridge :=
  settle (w_promise w) (Resolved r) (clearTimeout (w_timeout w) b).

Definition waiter_reject (w : waiter) (e : failure) (b : bridge) : bridge :=
  settle (w_promise w) (Rejected e) (clearTimeout (w_timeout w) b).

Definition handleResponse (response : MCPResponse) (b : bridge) : bridge :=
  match r_id response with
  | Some i =>
      match pendingRequests b !! i with
      | Some pending =>
          let b := waiter_resolve pending response b in
          set_pending (delete i (pendingRequests b)) b
      | None => b
      end
  | None => b
  end.

Section Bridge.
(** [JSON.parse(text) as MCPResponse]: [None] when the call throws, or
    when reading [id] off its result would.  An [id] that is neither a
    string nor a number is no key of [pendingRequests]; it reads as
    [r_id = None]. *)
Variable JSON_parse : string → option MCPResponse.

(** The body of [if (pendingData && pendingEvent)] in [processLines]. *)
Definition dispatch (pendingEvent pendingData : string) (b : bridge) : bridge :=
  if String.eqb pendingEvent "endpoint" then set_endpoint (Some pendingData) b
  else if String.eqb pendingEvent "message" then
    match JSON_parse pendingData with
    | Some response => handleResponse response b   (* try { ... } *)
    | None => b                                    (* catch {} *)
    end
  else b.

(** [connect], cut at its [await]s.  [connect_begin] runs up to the
    [fetch]; the result tells whether a [fetch] was started. *)
Definition connect_begin (b : bridge) : bool * bridge :=
  if isConnecting b then (false, b) else (true, set_connecting true b).

(** The [fetch] answered with a usable body: up to the first [read]. *)
Definition connect_opened (b : bridge) : bridge := set_connecting false b.

(** The [catch] block: the [fetch] failed, the status was bad, or a
    [read] failed. *)
Definition connect_error (b : bridge) : bridge :=
  scheduleReconnect (set_connecting false (set_endpoint None b)).

(** [if (done) { ... }] *)
Definition stream_ended (b : bridge) : bridge :=
  scheduleReconnect (set_endpoint None b).

(** The [.catch] handler after [this.connect()], in [startConnectionLoop]
    and in the timer callback.  [connect] settles its failures in its own
    [catch] block; the handler is kept for a rejection all the same. *)
Definition connect_rejected (b : bridge) : bridge := scheduleReconnect b.

(** A timer fires: it is no longer live and its callback runs. *)
Definition fire (t : nat) (b : bridge) : bridge :=
  match timers b !! t with
  | None => b
  | Some tm =>
      let b := clearTimeout t b in
      match callback_of tm with
      | Reconnect => (connect_begin b).2
      | RequestExpiry requestId p =>
          settle p (Rejected RequestTimeout)
                 (set_pending (delete requestId (pendingRequests b)) b)
      end
  end.

(** Lines 190 to 206 of [sendRequest]: the request is transformed, its
    waiter registered and its POST started.  [rand] is the text
    [Math.random().toString(36).slice(2)] would give. *)
Definition sendRequest_submit (rand : string) (request : MCPRequest) (b : bridge)
  : post * bridge :=
  let transformed := transformRequest request in
  let requestId := default (IdStr rand) (id transformed) in
  let fullRequest :=
    {| jsonrpc := jsonrpc transformed; id := Some requestId;
       method := method transformed; params := params transformed |} in
  let '(p, b) := new_promise b in
  let '(timeout, b) := setTimeout (RequestExpiry requestId p) 30000 b in
  let b := set_pending (<[requestId := Waiter timeout p]> (pendingRequests b)) b in
  let c := Post requestId timeout p (jbMessageEndpoint b) fullRequest in
  (c, start_post c b).

(** What a call of [sendRequest] has come to when it gives up control. *)
Inductive submission :=
| Queued             (* suspended at [await this.waitForConnection()] *)
| Posted (c : post). (* lines 190 to 206 have run *)

(** [sendRequest], cut at its [await].  With an endpoint the whole body
    runs at once.  Without one ([null], or the empty string) the caller is
    queued: [waitForConnection] polls on a timer of its own, and no field of
    the bridge, no timeout and no promise of the registry is touched. *)
Definition sendRequest (rand : string) (request : MCPRequest) (b : bridge)
  : submission * bridge :=
  if endpoint_known (jbMessageEndpoint b) then
    let '(c, b) := sendRequest_submit rand request b in (Posted c, b)
  else (Queued, b).

(** A queued call, once the promise of [waitForConnection] has the state
    [waited]: a rejection is thrown on to the caller and nothing is
    registered; after a resolution lines 190 to 206 run. *)
Definition sendRequest_resume (waited : wait_outcome)
    (rand : string) (request : MCPRequest) (b : bridge)
  : (failure + submission) * bridge :=
  match waited with
  | wait_pending => (inr Queued, b)
  | wait_rejected => (inl ConnectionTimeout, b)
  | wait_resolved =>
      let '(c, b) := sendRequest_submit rand request b in (inr (Posted c), b)
  end.

(** The [catch] handler of the POST. *)
Definition post_failed (c : post) (error : string) (b : bridge) : bridge :=
  let b := set_pending (delete (post_id c) (pendingRequests b)) b in
  let b := clearTimeout (post_timeout c) b in
  settle (post_promise c) (Rejected (TransportError error)) b.

(** What can happen to the bridge, one callback at a time, in whatever
    order the runtime delivers them.  A POST is named by its position in
    [posts].  [Submitted] is a call of [sendRequest], or a queued caller
    going on at line 190 in the turn in which the polling timer of
    [waitForConnection] has found the endpoint and resolved; the guard
    holds then, and the two do the same.  The polling timer itself touches
    none of the fields and is not an event. *)
Inductive event :=
| ConnectOpened
| ConnectError
| ConnectRejected
| StreamChunk (buffer value : string)
| StreamEnded
| TimerFired (t : nat)
| Submitted (rand : string) (request : MCPRequest)
| PostFailed (k : nat) (error : string).

Definition step (b : bridge) (e : event) : bridge :=
  match e with
  | ConnectOpened => connect_opened b
  | ConnectError => connect_error b
  | ConnectRejected => connect_rejected b
  | StreamChunk buffer value => (read_chunk dispatch buffer value b).2
  | StreamEnded => stream_ended b
  | TimerFired t => fire t b
  | Submitted rand request => (sendRequest rand request b).2
  | PostFailed k error =>
      match posts b !! k with
      | Some c => post_failed c error b
      | None => b
      end
  end.

(** The constructor: the initial field values, then
    [startConnectionLoop()]. *)
Definition new_bridge : bridge :=
  (connect_begin (Bridge None ∅ false None ∅ 0 ∅ 0 [])).2.

Definition run (es : list event) (b : bridge) : bridge := foldl step b es.

Definition reachable (b : bridge) : Prop := ∃ es, b = run es new_bridge.

End Bridge.

(** ** Notions used in the statements *)

(** A path component: not empty, and free of the separator [c]. *)
Definition is_name (c : ascii) (s : string) : Prop :=
  s ≠ "" ∧ Str.free_of c s = true.

(** A virtual-workspace segment of the path [p]: a component [@w] between
    two slashes, with [a] before it and [b] after it. *)
Definition virtual_workspace_segment (p a w b : string) : Prop :=
  p = a +:+ "/@" +:+ w +:+ "/" +:+ b ∧ w ≠ "" ∧ Str.free_of "/" w = true.

(** Stripping the virtual-workspace segment, said without a regular
    expression: [q] is [p] with its first virtual-workspace segment
    replaced by a slash, or [p] itself when it has none. *)
Definition stripped (p q : string) : Prop :=
  (∃ a w b, virtual_workspace_segment p a w b
            ∧ (∀ a' w' b', virtual_workspace_segment p a' w' b' →
                           String.length a ≤ String.length a')
            ∧ q = a +:+ "/" +:+ b)
  ∨ ((∀ a w b, ¬ virtual_workspace_segment p a w b) ∧ q = p).

(** The [arguments] object of a request, and one argument of it. *)
Definition arguments_of (r : MCPRequest) : option (gmap string jvalue) :=
  match params r with
  | Some ps => match ps !! "arguments" with Some (JObj a) => Some a | _ => None end
  | None => None
  end.

Definition argument (r : MCPRequest) (key : string) : option jvalue :=
  match arguments_of r with Some a => a !! key | None => None end.

(** What the loop body makes of the value found under its key. *)
Definition prepended (t : string) (v : option jvalue) : option jvalue :=
  match v with
  | Some (JStr val) =>
      if negb (Str.is_empty val)
         && negb (Str.startsWith "/" val)
         && negb (Str.startsWith t val)
      then Some (JStr (t +:+ "/" +:+ val))
      else Some (JStr val)
  | _ => v
  end.

Definition tool_call (args : gmap string jvalue) : MCPRequest :=
  {| jsonrpc := "2.0"; id := Some (IdNum 1); method := "tools/call";
     params := Some {[ "name" := JStr "list_directory_tree";
                       "arguments" := JObj args ]} |}.

(** The pairs one line adds, and the slots after it. *)
Definition emitted_by_line (sl : slots) (line : string) : list (string * string) :=
  (line_step record_pair (sl, []) line).2.

Definition slots_after_line (sl : slots) (line : string) : slots :=
  (line_step record_pair (sl, []) line).1.

(** The stream a sequence of chunks adds up to, its complete lines, and
    the framing the server uses: every [data: ] line is directly followed
    by an [event: ] line. *)
Definition stream_of (chunks : list string) : string := foldr String.append "" chunks.

Definition complete_lines (stream : string) : list string :=
  removelast (Str.split Str.nl stream).

Fixpoint framed (lines : list string) : bool :=
  match lines with
  | [] => true
  | l :: rest =>
      if Str.startsWith "data: " l then
        match rest with
        | e :: _ => Str.startsWith "event: " e && framed rest
        | [] => false
        end
      else framed rest
  end.

(** A line with its terminator. *)
Definition ln (s : string) : string := s +:+ String Str.nl "".

(** Replaying emitted pairs on a state. *)
Definition replay {S : Type} (emit : string → string → S → S)
    (pairs : list (string * string)) (s : S) : S :=
  foldl (fun s p => emit p.1 p.2 s) s pairs.

(** A reconnection timer that is live. *)
Definition live_reconnect (b : bridge) (t : nat) : Prop :=
  ∃ tm, timers b !! t = Some tm ∧ callback_of tm = Reconnect.

(** The timer table is consistent with the handles the bridge holds: live
    handles and the stored handle were all issued, and a live reconnection
    timer is the stored one. *)
Definition timers_ok (b : bridge) : Prop :=
  (∀ t tm, timers b !! t = Some tm → t < next_timer b)
  ∧ (∀ t, reconnectTimer b = Some t → t < next_timer b)
  ∧ (∀ t, live_reconnect b t → reconnectTimer b = Some t).

(** [b'] has no timer that [b] has not, and the same handles. *)
Definition timers_shrink (b b' : bridge) : Prop :=
  timers b' ⊆ timers b
  ∧ next_timer b' = next_timer b
  ∧ reconnectTimer b' = reconnectTimer b.

Definition some_request (i : Z) : MCPRequest :=
  {| jsonrpc := "2.0"; id := Some (IdNum i); method := "tools/list"; params := None |}.

Definition some_response (i : Z) : MCPResponse :=
  {| r_id := Some (IdNum i); r_result := Some (JObj ∅); r_error := None |}.

Definition connected_bridge : bridge := set_endpoint (Some "/message") new_bridge.

Definition no_parse : string → option MCPResponse := fun _ => None.

Definition reconnecting_trace : list event :=
  [ConnectOpened; StreamChunk "" (ln "data: /message" +:+ ln "event: endpoint");
   StreamEnded; TimerFired 0; ConnectError].

(** The promise [p] belongs to the request with the identifier [i]: it
    has been handed out, and a registered waiter that completes it can only
    be registered under [i]. *)
Definition owned_by (b : bridge) (p : nat) (i : req_id) : Prop :=
  p < next_promise b
  ∧ ∀ i' w, pendingRequests b !! i' = Some w → w_promise w = p → i' = i.

(** The registry is consistent with the promises: settled promises were
    handed out; the caller of a registered waiter is still waiting; the
    promise an expiry timer or a POST refers to belongs to its request. *)
Definition promises_ok (b : bridge) : Prop :=
  (∀ p o, promises b !! p = Some o → p < next_promise b)
  ∧ (∀ i w, pendingRequests b !! i = Some w →
            promises b !! w_promise w = None ∧ owned_by b (w_promise w) i)
  ∧ (∀ t i p ms, timers b !! t = Some (Timer (RequestExpiry i p) ms) → owned_by b p i)
  ∧ (∀ k c, posts b !! k = Some c → owned_by b (post_promise c) (post_id c)).

(** [b'] differs from [b] at most in the connection fields and in timers
    that are not expiry timers. *)
Definition correlator_frame (b b' : bridge) : Prop :=
  promises b' = promises b
  ∧ pendingRequests b' = pendingRequests b
  ∧ next_promise b' = next_promise b
  ∧ posts b' = posts b
  ∧ ∀ t i p ms, timers b' !! t = Some (Timer (RequestExpiry i p) ms) →
                timers b !! t = Some (Timer (RequestExpiry i p) ms).

(** The three ways a request ends share their effect on the registry and
    on the promise. *)
Definition finish (i : req_id) (p : nat) (o : outcome) (b : bridge) : bridge :=
  settle p o (set_pending (delete i (pendingRequests b)) b).

(** The arguments [transformRequest] builds from the copy [args] of a tool
    call's [arguments]: its two [if] blocks, one after the other. *)
Definition rewritten_args (args : gmap string jvalue) : gmap string jvalue :=
  match rewrite_projectPath args with
  | (Some t, args) =>
      if Str.is_empty t then args else foldl (prepend_key t) args relativePathKeys
  | (None, args) => args
  end.

(** Two prefixes of one text: one of them is a prefix of the other. *)
Definition compatible (a b : string) : bool :=
  Str.startsWith a b || Str.startsWith b a.

(** The prefix tests of [classifyPath]. *)
Definition wsl_prefixed (p : string) : bool :=
  Str.startsWith "//wsl.localhost" p || Str.startsWith "\\wsl.localhost" p.

Definition unix_prefixed (p : string) : bool :=
  Str.startsWith "/home/" p || Str.startsWith "/Users/" p || Str.startsWith "/tmp/" p.

(** What the read loop hands to [processLines]: one batch of complete
    lines per chunk, in order, and the buffer left after the last chunk. *)
Definition read_batches (chunks : list string) : list (list string) * string :=
  foldl (fun st value =>
           let lines := Str.split Str.nl (st.2 +:+ value) in
           (st.1 ++ [removelast lines], List.last lines ""))
        ([], "") chunks.

(** The data left pending when [processLines] returns from a batch. *)
Definition pending_after (lines : list string) : string :=
  pendingData (foldl (line_step record_pair) (no_slots, []) lines).1.

(** The lines of a batch that carry a payload, and those that name an
    event. *)
Definition payload_lines (lines : list string) : nat :=
  length (List.filter
            (fun l => Str.startsWith "data: " l && negb (Str.is_empty (Str.slice 6 l)))
            lines).

Definition named_event_lines (lines : list string) : nat :=
  length (List.filter
            (fun l => Str.startsWith "event: " l
                      && negb (Str.is_empty (Str.trim (Str.slice 7 l))))
            lines).

(** 1 when data is pending, 0 otherwise. *)
Definition pending_count (sl : slots) : nat :=
  if Str.is_empty (pendingData sl) then 0 else 1.

(** The expiry timers are consistent with the registry and with the POSTs
    under way: a registered waiter has its own timer live; the timer a
    POST would clear was issued and, as long as it is live, is the timer
    of that request; a promise has at most one expiry timer, that of its
    request, and is pending as long as the timer is live; the handle in
    [reconnectTimer] is no expiry timer. *)
Definition expiry_ok (b : bridge) : Prop :=
  (∀ i w, pendingRequests b !! i = Some w →
          timers b !! w_timeout w = Some (Timer (RequestExpiry i (w_promise w)) 30000))
  ∧ (∀ k c, posts b !! k = Some c → post_timeout c < next_timer b)
  ∧ (∀ k c i p ms, posts b !! k = Some c →
       timers b !! post_timeout c = Some (Timer (RequestExpiry i p) ms) →
       i = post_id c ∧ p = post_promise c)
  ∧ (∀ k c t i ms, posts b !! k = Some c →
       timers b !! t = Some (Timer (RequestExpiry i (post_promise c)) ms) →
       t = post_timeout c)
  ∧ (∀ t t' i i' p ms ms',
       timers b !! t = Some (Timer (RequestExpiry i p) ms) →
       timers b !! t' = Some (Timer (RequestExpiry i' p) ms') → t = t')
  ∧ (∀ t i p ms, timers b !! t = Some (Timer (RequestExpiry i p) ms) →
                 promises b !! p = None)
  ∧ (∀ t0 i p ms, reconnectTimer b = Some t0 →
                  timers b !! t0 ≠ Some (Timer (RequestExpiry i p) ms)).

(** All that holds of the bridge in every state it can reach. *)
Definition bridge_ok (b : bridge) : Prop :=
  timers_ok b ∧ promises_ok b ∧ expiry_ok b.

(** A pair as the server frames it: the [data: ] line, then the
    [event: ] line. *)
Definition frame (payload name : string) : string :=
  ln ("data: " +:+ payload) +:+ ln ("event: " +:+ name).

(** * Properties *)

(** ** Strings *)

Module StrFacts.
Import Str.

Lemma app_cons c s t : String c s +:+ t = String c (s +:+ t).
Proof. reflexivity. Qed.

Lemma app_assoc' s t u : (s +:+ t) +:+ u = s +:+ t +:+ u.
Proof. induction s as [|c s IH]; [done|]. by rewrite !app_cons, IH. Qed.

Lemma is_empty_true s : is_empty s = true ↔ s = "".
Proof. by destruct s. Qed.

Lemma is_empty_false s : is_empty s = false ↔ s ≠ "".
Proof. by destruct s. Qed.

Lemma startsWith_app p r : startsWith p (p +:+ r) = true.
Proof.
  induction p as [|a p IH]; [done|].
  rewrite app_cons. simpl. by rewrite Ascii.eqb_refl.
Qed.

Lemma startsWith_spec p s : startsWith p s = true ↔ ∃ r, s = p +:+ r.
Proof.
  split.
  - revert s. induction p as [|a p IH]; intros s H.
    + by exists s.
    + destruct s as [|b s]; [done|]. simpl in H.
      destruct (Ascii.eqb_spec a b) as [->|]; [|done].
      destruct (IH _ H) as [r ->]. by exists r.
  - intros [r ->]. apply startsWith_app.
Qed.

Lemma startsWith_cons_false a p b s :
  a ≠ b → startsWith (String a p) (String b s) = false.
Proof. intros H. simpl. by destruct (Ascii.eqb_spec a b). Qed.

Lemma free_of_app c s t : free_of c (s +:+ t) = free_of c s && free_of c t.
Proof.
  induction s as [|a s IH]; [done|].
  rewrite app_cons. simpl. rewrite IH. by rewrite andb_assoc.
Qed.

(** The text after the last separator is determined by the whole. *)
Lemma last_component_unique c a a' n n' :
  free_of c n = true → free_of c n' = true →
  a +:+ String c n = a' +:+ String c n' → a = a' ∧ n = n'.
Proof.
  intros Hn Hn'. revert a'.
  induction a as [|x a IH]; intros [|x' a'] E.
  - by injection E.
  - rewrite app_cons in E. injection E as -> ->.
    rewrite free_of_app in Hn. simpl in Hn.
    rewrite Ascii.eqb_refl in Hn. simpl in Hn.
    by rewrite andb_false_r in Hn.
  - rewrite app_cons in E. injection E as -> <-.
    rewrite free_of_app in Hn'. simpl in Hn'.
    rewrite Ascii.eqb_refl in Hn'. simpl in Hn'.
    by rewrite andb_false_r in Hn'.
  - rewrite !app_cons in E. injection E as -> E.
    destruct (IH _ E) as [-> ->]. done.
Qed.

Lemma app_inj_length a a' s s' :
  a +:+ s = a' +:+ s' → String.length a = String.length a' → a = a' ∧ s = s'.
Proof.
  revert a'. induction a as [|x a IH]; intros [|x' a'] E Hl; try done.
  rewrite !app_cons in E. injection E as -> E. injection Hl as Hl.
  by destruct (IH _ E Hl) as [-> ->].
Qed.

(** The text before the first occurrence of a character is determined. *)
Lemma first_sep_unique c w w' b b' :
  free_of c w = true → free_of c w' = true →
  w +:+ String c b = w' +:+ String c b' → w = w' ∧ b = b'.
Proof.
  revert w'. induction w as [|x w IH]; intros [|x' w'] Hw Hw' E.
  - by injection E as ->.
  - rewrite app_cons in E. injection E as <- _. simpl in Hw'.
    by rewrite Ascii.eqb_refl in Hw'.
  - rewrite app_cons in E. injection E as -> _. simpl in Hw.
    by rewrite Ascii.eqb_refl in Hw.
  - rewrite !app_cons in E. injection E as -> E. simpl in Hw, Hw'.
    apply andb_true_iff in Hw as [_ Hw]. apply andb_true_iff in Hw' as [_ Hw'].
    by destruct (IH _ Hw Hw' E) as [-> ->].
Qed.

End StrFacts.

(** ** The regular expressions of the path translator *)

Module RegexFacts.
Import Str StrFacts.

Lemma chr_true c a : chr c a = true ↔ a = c.
Proof. unfold chr. rewrite Ascii.eqb_eq. naive_solver. Qed.

Lemma many_cons cls k c s :
  many cls k (String c s) =
  if cls c then
    match many cls k s with
    | Some (w, r) => Some (String c w, r)
    | None => match k s with
              | Some r => Some (String c EmptyString, r)
              | None => None
              end
    end
  else None.
Proof. reflexivity. Qed.

(** [[^/]+] before [$]: the whole rest, which must be a non-empty text
    without the character. *)
Lemma many_to_end_sound c s w r :
  many (nchr c) (match_here [Eos] false) s = Some (w, r) →
  w = s ∧ s ≠ "" ∧ free_of c s = true ∧ r = ([], "").
Proof.
  revert w r. induction s as [|a s IH]; intros w r H; [done|].
  simpl in H. unfold nchr at 1 in H.
  destruct (negb (Ascii.eqb a c)) eqn:Ha; [|done].
  destruct (many _ _ s) as [[w' r']|] eqn:Hm.
  - injection H as <- <-. destruct (IH _ _ eq_refl) as (-> & _ & Hf & ->).
    simpl. by rewrite Ha, Hf.
  - destruct s; [|done]. simpl in H. injection H as <- <-.
    simpl. by rewrite Ha.
Qed.

Lemma many_to_end_complete c s :
  s ≠ "" → free_of c s = true →
  many (nchr c) (match_here [Eos] false) s = Some (s, ([], "")).
Proof.
  induction s as [|a s IH]; intros Hne Hf; [done|].
  simpl in Hf. apply andb_true_iff in Hf as [Ha Hf].
  rewrite many_cons. unfold nchr at 1. rewrite Ha.
  destruct s as [|b s]; [done|].
  by rewrite IH.
Qed.

(** [[^/]+] before [/]: a non-empty text without the character, then
    the character. *)
Lemma many_to_sep_sound c s w r :
  many (nchr c) (match_here [One (chr c)] false) s = Some (w, r) →
  s = w +:+ String c r.2 ∧ w ≠ "" ∧ free_of c w = true ∧ r.1 = [].
Proof.
  revert w r. induction s as [|a s IH]; intros w r H; [done|].
  simpl in H. unfold nchr at 1 in H.
  destruct (negb (Ascii.eqb a c)) eqn:Ha; [|done].
  destruct (many _ _ s) as [[w' r']|] eqn:Hm.
  - injection H as <- <-. destruct (IH _ _ eq_refl) as (-> & _ & Hf & Hc).
    rewrite app_cons. simpl. by rewrite Ha, Hf.
  - destruct s as [|b s]; [done|].
    destruct (chr c b) eqn:Hb; [|done].
    apply chr_true in Hb as ->. injection H as <- <-.
    simpl. by rewrite Ha.
Qed.

Lemma search_unfold r at0 s :
  search r at0 s =
  match match_here r at0 s with
  | Some (caps, rest) => Some (Found EmptyString caps rest)
  | None =>
      match s with
      | EmptyString => None
      | String c s' =>
          match search r false s' with
          | Some f => Some (Found (String c (before f)) (groups f) (after f))
          | None => None
          end
      end
  end.
Proof. by destruct s. Qed.

Lemma match_dev_tail at0 s caps rest :
  match_here re_dev_tail at0 s = Some (caps, rest) ↔
  ∃ name, s = "/dev/" +:+ name ∧ is_name "/" name ∧ caps = [name] ∧ rest = "".
Proof.
  unfold re_dev_tail. split.
  - intros H.
    repeat (destruct s as [|? s]; cbn [match_here] in H; [done|];
            match type of H with
            | (if chr ?c ?a then _ else _) = _ =>
                destruct (chr c a) eqn:?Hc; [apply chr_true in Hc as ->|done]
            end).
    destruct (many _ _ s) as [[w [caps' rest']]|] eqn:Hm; [|done].
    apply many_to_end_sound in Hm as (-> & Hne & Hf & [= -> ->]).
    injection H as <- <-. by exists s.
  - intros (name & -> & [Hne Hf] & -> & ->).
    simpl. by rewrite many_to_end_complete.
Qed.

Lemma search_dev_tail_sound at0 s f :
  search re_dev_tail at0 s = Some f →
  ∃ name, s = before f +:+ "/dev/" +:+ name ∧ is_name "/" name
          ∧ groups f = [name] ∧ after f = "".
Proof.
  revert at0 f. induction s as [|a s IH]; intros at0 f H.
  - done.
  - cbn [search] in H.
    destruct (match_here re_dev_tail at0 (String a s)) as [[caps rest]|] eqn:Hm.
    + injection H as <-. apply match_dev_tail in Hm as (name & -> & ? & -> & ->).
      by exists name.
    + destruct (search re_dev_tail false s) as [g|] eqn:Hs; [|done].
      injection H as <-. destruct (IH _ _ Hs) as (name & -> & ? & ? & ?).
      by exists name.
Qed.

Lemma search_dev_tail_complete at0 pre name :
  is_name "/" name →
  is_Some (search re_dev_tail at0 (pre +:+ "/dev/" +:+ name)).
Proof.
  intros Hn. revert at0. induction pre as [|a pre IH]; intros at0.
  - assert (match_here re_dev_tail at0 ("" +:+ "/dev/" +:+ name) = Some ([name], ""))
      as Hm by (apply match_dev_tail; by exists name).
    by rewrite search_unfold, Hm.
  - rewrite app_cons, search_unfold.
    destruct (match_here _ _ _) as [[??]|]; [done|].
    destruct (IH false) as [g ->]. done.
Qed.

Lemma search_virtual_workspace_sound at0 s f :
  search re_virtual_workspace at0 s = Some f →
  ∃ w, s = before f +:+ "/@" +:+ w +:+ "/" +:+ after f ∧ is_name "/" w.
Proof.
  revert at0 f. induction s as [|a s IH]; intros at0 f H; [done|].
  cbn [search] in H.
  destruct (match_here re_virtual_workspace at0 (String a s)) as [[caps rest]|] eqn:Hm.
  - injection H as <-. unfold re_virtual_workspace in Hm.
    cbn [match_here] in Hm.
    destruct (chr "/" a) eqn:Ha; [apply chr_true in Ha as ->|done].
    destruct s as [|b s]; cbn [match_here] in Hm; [done|].
    destruct (chr "@" b) eqn:Hb; [apply chr_true in Hb as ->|done].
    destruct (many _ _ s) as [[w [caps' rest']]|] eqn:Hw; [|done].
    apply many_to_sep_sound in Hw as (-> & ? & ? & ?).
    injection Hm as <- <-. exists w. by split.
  - destruct (search re_virtual_workspace false s) as [g|] eqn:Hs; [|done].
    injection H as <-. destruct (IH _ _ Hs) as (w & -> & ?).
    by exists w.
Qed.

(** [[^/]+] before [/], the other way round: a path component followed by
    the separator is taken whole. *)
Lemma many_to_sep_complete c w b :
  is_name c w →
  many (nchr c) (match_here [One (chr c)] false) (w +:+ String c b)
  = Some (w, ([], b)).
Proof.
  intros [Hne Hf]. induction w as [|x w IH]; [done|].
  simpl in Hf. apply andb_true_iff in Hf as [Hx Hf].
  rewrite app_cons, many_cons. unfold nchr at 1. rewrite Hx.
  destruct w as [|y w].
  - change ("" +:+ String c b) with (String c b).
    rewrite many_cons. unfold nchr at 1. rewrite Ascii.eqb_refl. cbn [negb].
    cbn [match_here]. by rewrite (proj2 (chr_true c c) eq_refl).
  - by rewrite IH.
Qed.

(** The expression matches where a virtual-workspace segment starts. *)
Lemma match_virtual_workspace_segment at0 w b :
  is_name "/" w →
  match_here re_virtual_workspace at0 ("/@" +:+ w +:+ "/" +:+ b) = Some ([], b).
Proof.
  intros Hw.
  change ("/@" +:+ w +:+ "/" +:+ b)
    with (String "/" (String "@" (w +:+ String "/" b))).
  unfold re_virtual_workspace. cbn [match_here].
  rewrite (proj2 (chr_true "/" "/") eq_refl), (proj2 (chr_true "@" "@") eq_refl).
  by rewrite many_to_sep_complete.
Qed.

(** The search stops at a virtual-workspace segment or before it. *)
Lemma search_virtual_workspace_leftmost at0 a w b :
  is_name "/" w →
  ∃ f, search re_virtual_workspace at0 (a +:+ "/@" +:+ w +:+ "/" +:+ b) = Some f
       ∧ String.length (before f) ≤ String.length a.
Proof.
  intros Hw. revert at0. induction a as [|x a IH]; intros at0.
  - rewrite search_unfold.
    change ("" +:+ "/@" +:+ w +:+ "/" +:+ b) with ("/@" +:+ w +:+ "/" +:+ b).
    rewrite match_virtual_workspace_segment by done. by eexists.
  - rewrite app_cons, search_unfold.
    destruct (match_here _ _ _) as [[caps rest]|].
    + eexists. split; [done|]. simpl. lia.
    + destruct (IH false) as (f & -> & Hl). eexists. split; [done|]. simpl. lia.
Qed.

(** Two virtual-workspace segments that start at the same place are the
    same. *)
Lemma virtual_workspace_segment_unique p a w b a' w' b' :
  virtual_workspace_segment p a w b → virtual_workspace_segment p a' w' b' →
  String.length a = String.length a' → a = a' ∧ w = w' ∧ b = b'.
Proof.
  intros (-> & _ & Hw) (E & _ & Hw') Hl.
  apply app_inj_length in E as [-> E]; [|done].
  change ("/@" +:+ w +:+ "/" +:+ b) with (String "/" (String "@" (w +:+ String "/" b))) in E.
  change ("/@" +:+ w' +:+ "/" +:+ b')
    with (String "/" (String "@" (w' +:+ String "/" b'))) in E.
  injection E as E. by apply first_sep_unique in E as [-> ->].
Qed.

End RegexFacts.

(** ** Path translator *)

Section PathTranslator.
Import Str StrFacts RegexFacts.

(** [normalize] either leaves the path alone or removes one component
    [@name] together with the slash before it. *)
Lemma normalize_cases p :
  normalize p = p ∨
  ∃ a w b, p = a +:+ "/@" +:+ w +:+ "/" +:+ b ∧ is_name "/" w
           ∧ normalize p = a +:+ "/" +:+ b.
Proof.
  unfold normalize, replace, exec.
  destruct (search re_virtual_workspace true p) as [f|] eqn:Hs; [|by left].
  right. apply search_virtual_workspace_sound in Hs as (w & Hp & Hw).
  by exists (before f), w, (after f).
Qed.

Lemma unixToWslPath_prefix p :
  unixToWslPath p = "//wsl.localhost" +:+ "/Ubuntu" +:+ normalize p.
Proof. reflexivity. Qed.

Lemma classifyPath_wsl_prefix r : classifyPath ("//wsl.localhost" +:+ r) = wsl.
Proof.
  unfold classifyPath.
  by rewrite (startsWith_app "//wsl.localhost" r).
Qed.

Lemma extractProjectSubfolder_Some p name :
  extractProjectSubfolder p = Some name ↔
  ∃ pre, normalize p = pre +:+ "/dev/" +:+ name ∧ is_name "/" name.
Proof.
  unfold extractProjectSubfolder, exec. split.
  - destruct (search re_dev_tail true (normalize p)) as [f|] eqn:Hs; [|done].
    apply search_dev_tail_sound in Hs as (n & -> & Hn & -> & _).
    intros [= <-]. by exists (before f).
  - intros (pre & E & Hn).
    destruct (search_dev_tail_complete true pre name Hn) as [f Hs].
    rewrite E, Hs.
    apply search_dev_tail_sound in Hs as (n & E' & [_ Hn'] & -> & _).
    change (pre +:+ "/dev/" +:+ name) with (pre +:+ "/dev" +:+ String "/" name) in E'.
    change (before f +:+ "/dev/" +:+ n)
      with (before f +:+ "/dev" +:+ String "/" n) in E'.
    rewrite <- !app_assoc' in E'.
    apply last_component_unique in E' as [_ ->]; [done|apply Hn|done].
Qed.

Lemma extractProjectSubfolder_None p :
  extractProjectSubfolder p = None ↔
  ¬ ∃ pre name, normalize p = pre +:+ "/dev/" +:+ name ∧ is_name "/" name.
Proof.
  split.
  - intros H (pre & name & Hn).
    assert (extractProjectSubfolder p = Some name) as E
        by (apply extractProjectSubfolder_Some; eauto).
    congruence.
  - intros H. destruct (extractProjectSubfolder p) as [name|] eqn:E; [|done].
    apply extractProjectSubfolder_Some in E as (pre & ? & ?).
    destruct H; eauto.
Qed.

(** A derived subfolder is never the empty text, so [if (projectSubfolder)]
    in [transformRequest] is a test for [null]. *)
Lemma extractProjectSubfolder_nonempty p t :
  extractProjectSubfolder p = Some t → is_empty t = false.
Proof.
  intros (pre & _ & [Hne _])%extractProjectSubfolder_Some.
  by apply is_empty_false.
Qed.

(** [normalize] strips the virtual-workspace segment, and nothing else
    does. *)
Lemma normalize_stripped p : stripped p (normalize p).
Proof.
  unfold normalize, replace, exec.
  destruct (search re_virtual_workspace true p) as [f|] eqn:Hs.
  - left. destruct (search_virtual_workspace_sound _ _ _ Hs) as (w & Hp & Hw).
    exists (before f), w, (after f). split_and!; [by split|..|done].
    intros a' w' b' (E & Hw'). rewrite E in Hs.
    destruct (search_virtual_workspace_leftmost true a' w' b' Hw') as (f' & Hs' & Hl).
    congruence.
  - right. split; [|done]. intros a w b (E & Hw). rewrite E in Hs.
    destruct (search_virtual_workspace_leftmost true a w b Hw) as (f' & Hs' & _).
    congruence.
Qed.

Lemma stripped_functional p q q' : stripped p q → stripped p q' → q = q'.
Proof.
  intros [(a & w & b & Hseg & Hmin & ->)|[Hno ->]]
         [(a' & w' & b' & Hseg' & Hmin' & ->)|[Hno' ->]].
  - specialize (Hmin _ _ _ Hseg'). specialize (Hmin' _ _ _ Hseg).
    destruct (virtual_workspace_segment_unique p a w b a' w' b') as (-> & _ & ->);
      [done|done|lia|done].
  - by destruct (Hno' _ _ _ Hseg).
  - by destruct (Hno _ _ _ Hseg').
  - done.
Qed.

Lemma stripped_normalize p q : stripped p q ↔ normalize p = q.
Proof.
  split.
  - intros H. apply (stripped_functional p); [apply normalize_stripped|done].
  - intros <-. apply normalize_stripped.
Qed.

End PathTranslator.

(** C3.  For every path [p] that [classifyPath] maps to [unix],
    [classifyPath (unixToWslPath p)] is [wsl]. *)
Theorem classify_unixToWslPath (p : string) :
  classifyPath p = unix → classifyPath (unixToWslPath p) = wsl.
Proof.
  intros _. rewrite unixToWslPath_prefix. apply classifyPath_wsl_prefix.
Qed.

Lemma classify_unixToWslPath_witness :
  classifyPath "/home/user/@ws/project" = unix
  ∧ classifyPath (unixToWslPath "/home/user/@ws/project") = wsl.
Proof.
  split; [reflexivity|].
  apply (classify_unixToWslPath "/home/user/@ws/project"). reflexivity.
Defined.

(** C9.  [extractProjectSubfolder] (the specification's [deriveSubfolder])
    first strips the virtual-workspace segment: what it goes on with is the
    path with its first segment [/@w/] (a component [@w], [w] not empty and
    without a slash) replaced by a slash, and the path itself when it has
    no such segment.  It returns [name] exactly when the stripped path is
    some text followed by [/dev/] and [name], where [name] is a path
    component (not empty, no slash), and nothing exactly when the stripped
    path has no such tail.  In particular it gives [myproject] on
    [/home/user/dev/myproject] and nothing on [/home/user/x]; with a
    virtual-workspace segment in the path, it gives [proj] on
    [/home/user/dev/@ws/proj] and [myproject] on
    [/home/@ws/user/dev/myproject], and nothing on
    [/home/user/@dev/myproject]. *)
Theorem extractProjectSubfolder_spec :
  (∀ p q, stripped p q ↔ normalize p = q)
  ∧ (∀ p name,
     extractProjectSubfolder p = Some name ↔
     ∃ q pre, stripped p q ∧ q = pre +:+ "/dev/" +:+ name
              ∧ name ≠ "" ∧ Str.free_of "/" name = true)
  ∧ (∀ p,
     extractProjectSubfolder p = None ↔
     ∃ q, stripped p q
          ∧ ¬ ∃ pre name, q = pre +:+ "/dev/" +:+ name
                          ∧ name ≠ "" ∧ Str.free_of "/" name = true)
  ∧ extractProjectSubfolder "/home/user/dev/myproject" = Some "myproject"
  ∧ extractProjectSubfolder "/home/user/x" = None
  ∧ extractProjectSubfolder "/home/user/dev/@ws/proj" = Some "proj"
  ∧ extractProjectSubfolder "/home/@ws/user/dev/myproject" = Some "myproject"
  ∧ extractProjectSubfolder "/home/user/@dev/myproject" = None.
Proof.
  split_and!; try reflexivity.
  - apply stripped_normalize.
  - intros p name. rewrite extractProjectSubfolder_Some. split.
    + intros (pre & E & Hn). exists (normalize p), pre.
      split; [apply normalize_stripped|done].
    + intros (q & pre & <-%stripped_normalize & E & Hn). by exists pre.
  - intros p. rewrite extractProjectSubfolder_None. split.
    + intros H. exists (normalize p). split; [apply normalize_stripped|done].
    + by intros (q & <-%stripped_normalize & H).
Qed.

(** ** Request rewriting *)

Section TransformRequest.
Import Str StrFacts RegexFacts.

Lemma prepend_key_lookup t (args : gmap string jvalue) key k :
  prepend_key t args key !! k =
  if decide (k = key) then prepended t (args !! k) else args !! k.
Proof.
  unfold prepend_key, prepended. case_decide as Hk.
  - subst k. destruct (args !! key) as [[| | |val| |]|] eqn:E; rewrite ?E; try done.
    destruct (_ && _); [by rewrite lookup_insert_eq | by rewrite E].
  - destruct (args !! key) as [[| | |val| |]|]; try done.
    destruct (_ && _); [by rewrite lookup_insert_ne | done].
Qed.

Lemma prepend_keys_lookup t keys (args : gmap string jvalue) k :
  NoDup keys →
  foldl (prepend_key t) args keys !! k =
  if decide (k ∈ keys) then prepended t (args !! k) else args !! k.
Proof.
  intros Hnd. revert args.
  induction Hnd as [|key keys Hnotin Hnd IH]; intros args.
  - cbn [foldl]. by rewrite decide_False by apply not_elem_of_nil.
  - cbn [foldl]. rewrite IH, prepend_key_lookup.
    destruct (decide (k = key)) as [->|Hne].
    + rewrite decide_False by done.
      rewrite decide_True by (apply elem_of_cons; by left). done.
    + destruct (decide (k ∈ keys)) as [Hin|Hout].
      * rewrite decide_True by (apply elem_of_cons; by right). done.
      * rewrite decide_False; [done|].
        intros [?|?]%elem_of_cons; done.
Qed.

Lemma relativePathKeys_NoDup : NoDup relativePathKeys.
Proof. compute_done. Qed.

Lemma projectPath_not_relative_key : "projectPath" ∉ relativePathKeys.
Proof. compute_done. Qed.

Lemma classifyPath_unix_nonempty p : classifyPath p = unix → is_empty p = false.
Proof. by destruct p. Qed.

(** The arguments the translator produces for a tool invocation whose
    [projectPath] is a unix path with a subfolder. *)
Lemma transformRequest_arguments request a pp t :
  method request = "tools/call" →
  arguments_of request = Some a →
  a !! "projectPath" = Some (JStr pp) →
  classifyPath pp = unix →
  extractProjectSubfolder pp = Some t →
  arguments_of (transformRequest request) =
    Some (foldl (prepend_key t)
                (<["projectPath" := JStr (unixToWslPath pp)]> a) relativePathKeys).
Proof.
  intros Hm Ha Hpp Hc Ht.
  unfold arguments_of in Ha. unfold transformRequest.
  destruct (params request) as [ps|]; [|done].
  destruct (ps !! "arguments") as [[| | | | |m]|] eqn:Hargs; try done.
  injection Ha as ->.
  rewrite Hm. simpl. unfold rewrite_projectPath. rewrite Hpp.
  rewrite (classifyPath_unix_nonempty _ Hc), Hc, Ht.
  rewrite (extractProjectSubfolder_nonempty _ _ Ht).
  unfold arguments_of. simpl. by rewrite lookup_insert_eq.
Qed.

Lemma transformRequest_argument request a pp t key :
  method request = "tools/call" →
  arguments_of request = Some a →
  a !! "projectPath" = Some (JStr pp) →
  classifyPath pp = unix →
  extractProjectSubfolder pp = Some t →
  key ∈ relativePathKeys →
  argument (transformRequest request) key = prepended t (a !! key).
Proof.
  intros Hm Ha Hpp Hc Ht Hkey. unfold argument.
  rewrite (transformRequest_arguments _ _ _ _ Hm Ha Hpp Hc Ht).
  rewrite prepend_keys_lookup by apply relativePathKeys_NoDup.
  rewrite decide_True by done.
  rewrite lookup_insert_ne; [done|].
  intros <-. by apply projectPath_not_relative_key.
Qed.

(** [/^[A-Za-z]:/] cannot match past the start of the subject. *)
Lemma search_drive_not_at_start s : search re_drive false s = None.
Proof.
  induction s as [|c s IH]; [done|].
  rewrite search_unfold, IH. done.
Qed.

Lemma test_drive_spec s :
  test re_drive s = true ↔
  ∃ c r, s = String c (String ":" r) ∧ is_letter c = true.
Proof.
  unfold test, exec. rewrite search_unfold. unfold re_drive.
  cbn [match_here]. split.
  - destruct s as [|c s].
    { done. }
    destruct (is_letter c) eqn:Hc.
    + destruct s as [|d s].
      { by rewrite search_drive_not_at_start. }
      destruct (chr ":" d) eqn:Hd.
      * apply chr_true in Hd as ->. intros _. by exists c, s.
      * by rewrite search_drive_not_at_start.
    + by rewrite search_drive_not_at_start.
  - intros (c & r & -> & Hc). rewrite Hc.
    by rewrite (proj2 (chr_true ":" ":") eq_refl).
Qed.

Lemma drive_prefix_not_slash s :
  test re_drive s = true → is_empty s = false ∧ startsWith "/" s = false.
Proof.
  intros (c & r & -> & Hc)%test_drive_spec. split; [done|].
  apply startsWith_cons_false. by intros <-.
Qed.

End TransformRequest.

(** C4, as amended.  For a [tools/call] request whose [projectPath]
    argument classifies as [unix] and derives the subfolder [t], every
    argument under one of [relativePathKeys] holding a non-empty string
    that neither starts with [/] nor with [t] becomes [t/<value>]; an
    empty, absolute or already-prefixed one is left as it is. *)
Theorem transformRequest_prepends_subfolder
    (request : MCPRequest) (a : gmap string jvalue) (pp t key val : string) :
  method request = "tools/call" →
  arguments_of request = Some a →
  a !! "projectPath" = Some (JStr pp) →
  classifyPath pp = unix →
  extractProjectSubfolder pp = Some t →
  key ∈ relativePathKeys →
  a !! key = Some (JStr val) →
  (val ≠ "" → Str.startsWith "/" val = false → Str.startsWith t val = false →
   argument (transformRequest request) key = Some (JStr (t +:+ "/" +:+ val)))
  ∧ (val = "" ∨ Str.startsWith "/" val = true ∨ Str.startsWith t val = true →
     argument (transformRequest request) key = Some (JStr val)).
Proof.
  intros Hm Ha Hpp Hc Ht Hkey Hval.
  rewrite (transformRequest_argument _ _ _ _ _ Hm Ha Hpp Hc Ht Hkey), Hval.
  unfold prepended. split.
  - intros Hne%StrFacts.is_empty_false -> ->. by rewrite Hne.
  - intros [->|[->| ->]]; [done| |]; by rewrite ?andb_false_r.
Qed.

Lemma transformRequest_prepends_subfolder_witness :
  let args : gmap string jvalue :=
    {[ "projectPath" := JStr "/home/user/dev/myproject";
       "path" := JStr "src/app" ]} in
  argument (transformRequest (tool_call args)) "path"
  = Some (JStr "myproject/src/app").
Proof.
  intros args.
  apply (transformRequest_prepends_subfolder
           (tool_call args) args "/home/user/dev/myproject" "myproject"
           "path" "src/app");
    try reflexivity; try discriminate.
  compute_done.
Defined.

(** The claim C4 as first stated — every string under a path-bearing key
    that is neither absolute nor prefixed is rewritten — fails on the
    empty string, which the loop's truthiness test skips. *)
Lemma transformRequest_keeps_empty_sibling :
  ¬ (∀ (request : MCPRequest) (a : gmap string jvalue) (pp t key val : string),
       method request = "tools/call" →
       arguments_of request = Some a →
       a !! "projectPath" = Some (JStr pp) →
       classifyPath pp = unix →
       extractProjectSubfolder pp = Some t →
       key ∈ relativePathKeys →
       a !! key = Some (JStr val) →
       Str.startsWith "/" val = false → Str.startsWith t val = false →
       argument (transformRequest request) key = Some (JStr (t +:+ "/" +:+ val))).
Proof.
  intros H.
  pose (args := ({[ "projectPath" := JStr "/home/user/dev/myproject";
                     "path" := JStr "" ]} : gmap string jvalue)).
  specialize (H (tool_call args) args "/home/user/dev/myproject" "myproject"
                "path" "" eq_refl eq_refl eq_refl eq_refl eq_refl).
  assert ("path" ∈ relativePathKeys) as Hkey by compute_done.
  specialize (H Hkey eq_refl eq_refl eq_refl).
  vm_compute in H. discriminate H.
Qed.

(** C10.  A sibling argument that begins with a drive letter and a colon
    is absolute in the Windows form, yet it does not start with [/]: when
    it does not start with the subfolder [t] either, it becomes
    [t/<value>]. *)
Theorem transformRequest_prepends_to_drive_path
    (request : MCPRequest) (a : gmap string jvalue) (pp t key val : string) :
  method request = "tools/call" →
  arguments_of request = Some a →
  a !! "projectPath" = Some (JStr pp) →
  classifyPath pp = unix →
  extractProjectSubfolder pp = Some t →
  key ∈ relativePathKeys →
  a !! key = Some (JStr val) →
  test re_drive val = true →
  Str.startsWith t val = false →
  argument (transformRequest request) key = Some (JStr (t +:+ "/" +:+ val)).
Proof.
  intros Hm Ha Hpp Hc Ht Hkey Hval [Hne Hslash]%drive_prefix_not_slash Hpre.
  rewrite (transformRequest_argument _ _ _ _ _ Hm Ha Hpp Hc Ht Hkey), Hval.
  unfold prepended. by rewrite Hne, Hslash, Hpre.
Qed.

Lemma transformRequest_prepends_to_drive_path_witness :
  let args : gmap string jvalue :=
    {[ "projectPath" := JStr "/home/user/dev/myproject";
       "filePath" := JStr "C:\x" ]} in
  classifyPath "C:\x" = windows
  ∧ argument (transformRequest (tool_call args)) "filePath"
    = Some (JStr "myproject/C:\x").
Proof.
  intros args. split; [reflexivity|].
  apply (transformRequest_prepends_to_drive_path
           (tool_call args) args "/home/user/dev/myproject" "myproject"
           "filePath" "C:\x");
    try reflexivity.
  compute_done.
Defined.

(** ** Event stream parser *)

Section ParserFacts.
Import Str StrFacts.
Context {S : Type} (emit : string → string → S → S).

Lemma event_line_not_data line :
  startsWith "event: " line = true → startsWith "data: " line = false.
Proof.
  intros [r ->]%startsWith_spec. reflexivity.
Qed.

Lemma line_step_data sl (s : S) line :
  startsWith "data: " line = true →
  line_step emit (sl, s) line = (Slots (slice 6 line) (pendingEvent sl), s).
Proof. intros H. unfold line_step. by rewrite H. Qed.

Lemma line_step_event_emit sl (s : S) line :
  startsWith "event: " line = true →
  pendingData sl ≠ "" → trim (slice 7 line) ≠ "" →
  line_step emit (sl, s) line
  = (no_slots, emit (trim (slice 7 line)) (pendingData sl) s).
Proof.
  intros H Hd%is_empty_false He%is_empty_false. unfold line_step.
  rewrite (event_line_not_data _ H), H. cbn [fst snd]. by rewrite Hd, He.
Qed.

Lemma line_step_event_hold sl (s : S) line :
  startsWith "event: " line = true →
  pendingData sl = "" ∨ trim (slice 7 line) = "" →
  line_step emit (sl, s) line = (Slots (pendingData sl) (trim (slice 7 line)), s).
Proof.
  intros H Hor. unfold line_step.
  rewrite (event_line_not_data _ H), H. cbn [fst snd].
  destruct Hor as [-> | ->]; [done|]. by rewrite andb_false_r.
Qed.

Lemma line_step_other (st : slots * S) line :
  startsWith "data: " line = false → startsWith "event: " line = false →
  line_step emit st line = st.
Proof. intros H1 H2. unfold line_step. by rewrite H1, H2. Qed.

(** As long as no [data: ] line has come, nothing is pending and
    nothing has been done. *)
Lemma no_data_line_no_effect lines (s : S) pe :
  Forall (fun l => startsWith "data: " l = false) lines →
  ∃ pe', foldl (line_step emit) (Slots "" pe, s) lines = (Slots "" pe', s).
Proof.
  intros H. revert pe. induction H as [|l lines Hl _ IH]; intros pe.
  - by exists pe.
  - cbn [foldl]. destruct (startsWith "event: " l) eqn:He.
    + rewrite line_step_event_hold by (done || by left). apply IH.
    + rewrite line_step_other by done. apply IH.
Qed.

End ParserFacts.

(** C5, as amended.  Within one batch: a [data: ] line sets the
    pending-data slot and emits nothing; an [event: ] line emits exactly
    one pair, the trimmed event name with the pending data, and clears both
    slots if and only if the pending-data slot is populated and the trimmed
    event name is not empty, and otherwise only sets the pending-event slot;
    an [event: ] line with no [data: ] line before it in the batch emits
    nothing; any other line changes nothing. *)
Theorem processLines_framing :
  (∀ sl line,
     Str.startsWith "data: " line = true →
     slots_after_line sl line = Slots (Str.slice 6 line) (pendingEvent sl)
     ∧ emitted_by_line sl line = [])
  ∧ (∀ sl line,
     Str.startsWith "event: " line = true →
     let ev := Str.trim (Str.slice 7 line) in
     (pendingData sl ≠ "" ∧ ev ≠ "" →
      emitted_by_line sl line = [(ev, pendingData sl)]
      ∧ slots_after_line sl line = no_slots)
     ∧ (¬ (pendingData sl ≠ "" ∧ ev ≠ "") →
        emitted_by_line sl line = []
        ∧ slots_after_line sl line = Slots (pendingData sl) ev))
  ∧ (∀ lines line,
     Forall (fun l => Str.startsWith "data: " l = false) lines →
     Str.startsWith "event: " line = true →
     emitted_by_lines (lines ++ [line]) = [])
  ∧ (∀ sl line,
     Str.startsWith "data: " line = false →
     Str.startsWith "event: " line = false →
     slots_after_line sl line = sl ∧ emitted_by_line sl line = []).
Proof.
  unfold emitted_by_line, slots_after_line.
  split; [|split; [|split]].
  - intros sl line H. by rewrite line_step_data.
  - intros sl line H. split.
    + intros [Hd He]. by rewrite line_step_event_emit.
    + intros Hn. rewrite line_step_event_hold; [done|done|].
      destruct (pendingData sl) as [|c d]; [by left|].
      destruct (Str.trim (Str.slice 7 line)) as [|c' e]; [by right|].
      destruct Hn. by split.
  - intros lines line Hl He. unfold emitted_by_lines, processLines.
    rewrite foldl_app. cbn [foldl]. unfold no_slots.
    destruct (no_data_line_no_effect record_pair lines [] "" Hl) as [pe ->].
    rewrite line_step_event_hold; [done|done|by left].
  - intros sl line H1 H2. by rewrite line_step_other.
Qed.

Lemma processLines_framing_witness :
  emitted_by_line (Slots "{}" "") "event: message" = [("message", "{}")]
  ∧ slots_after_line (Slots "{}" "") "event: message" = no_slots.
Proof.
  apply (proj1 (proj2 processLines_framing) (Slots "{}" "") "event: message");
    [reflexivity | split; discriminate].
Defined.

(** The claim C5 as first stated — an [event: ] line emits its pair if and
    only if the pending-data slot is populated — fails for an event line
    whose name is empty once trimmed: with [x] pending, the line [event: ]
    emits nothing, the data stays pending and goes out with the next named
    event. *)
Lemma event_line_with_data_can_emit_nothing :
  Str.startsWith "event: " "event: " = true
  ∧ pendingData (Slots "x" "") ≠ ""
  ∧ emitted_by_line (Slots "x" "") "event: " = []
  ∧ emitted_by_lines ["data: x"; "event: "] = []
  ∧ emitted_by_lines ["data: x"; "event: "; "event: message"] = [("message", "x")]
  ∧ ¬ (∀ sl line,
         Str.startsWith "event: " line = true →
         (pendingData sl ≠ "" ↔
          emitted_by_line sl line
          = [(Str.trim (Str.slice 7 line), pendingData sl)])).
Proof.
  split_and!; try done.
  intros H. specialize (H (Slots "x" "") "event: " eq_refl).
  destruct H as [H _]. by specialize (H ltac:(done)).
Qed.

Section ReadLoopFacts.
Import Str StrFacts.

Lemma split_nonempty sep s : split sep s ≠ [].
Proof.
  induction s as [|c s IH]; [done|].
  simpl. destruct (split sep s); [done|]. by destruct (Ascii.eqb c sep).
Qed.

Lemma split_cons sep c s :
  split sep (String c s) =
  if Ascii.eqb c sep then "" :: split sep s
  else match split sep s with
       | h :: t => String c h :: t
       | [] => []
       end.
Proof.
  simpl. pose proof (split_nonempty sep s).
  destruct (split sep s); [done|]. done.
Qed.

(** The carry-over buffer: splitting what has arrived so far gives the
    lines already handed on, then the split of the retained fragment
    followed by the new text. *)
Lemma split_app sep a b :
  split sep (a +:+ b) =
  removelast (split sep a) ++ split sep (List.last (split sep a) "" +:+ b).
Proof.
  induction a as [|c a IH]; [done|].
  rewrite app_cons, !split_cons.
  pose proof (split_nonempty sep a) as Ha.
  destruct (Ascii.eqb c sep) eqn:Hc.
  - rewrite IH. destruct (split sep a) as [|h t]; [done|]. done.
  - rewrite IH. destruct (split sep a) as [|h [|h' t]] eqn:Hs; [done| |].
    + cbn [removelast List.last app]. rewrite app_cons, split_cons, Hc.
      done.
    + cbn [removelast List.last app]. done.
Qed.

Lemma last_app_nonempty {A} (l k : list A) d :
  k ≠ [] → List.last (l ++ k) d = List.last k d.
Proof.
  intros Hk. induction l as [|x l IH]; [done|].
  cbn [app List.last]. rewrite IH.
  destruct (l ++ k) eqn:E; [|done].
  by apply app_eq_nil in E as [_ ->].
Qed.

Lemma carry_over_buffer consumed value :
  let buffer := List.last (split nl consumed) "" in
  complete_lines (consumed +:+ value)
  = complete_lines consumed ++ complete_lines (buffer +:+ value)
  ∧ List.last (split nl (consumed +:+ value)) ""
    = List.last (split nl (buffer +:+ value)) "".
Proof.
  intros buffer. unfold complete_lines. rewrite split_app. fold buffer.
  pose proof (split_nonempty nl (buffer +:+ value)) as Hne.
  split.
  - by rewrite removelast_app.
  - by apply last_app_nonempty.
Qed.

Context {S : Type} (emit : string → string → S → S).

(** What [processLines] does to a state is the replay of the pairs it
    emits. *)
Lemma line_step_replay sl tr (s0 : S) line :
  line_step emit (sl, replay emit tr s0) line
  = ((line_step record_pair (sl, tr) line).1,
     replay emit (line_step record_pair (sl, tr) line).2 s0).
Proof.
  unfold line_step. cbn [fst snd].
  destruct (startsWith "data: " line); [done|].
  destruct (startsWith "event: " line); [|done].
  destruct (_ && _); [|done].
  cbn [fst snd]. unfold replay, record_pair. by rewrite foldl_app.
Qed.

Lemma foldl_line_step_replay lines sl tr (s0 : S) :
  foldl (line_step emit) (sl, replay emit tr s0) lines
  = ((foldl (line_step record_pair) (sl, tr) lines).1,
     replay emit (foldl (line_step record_pair) (sl, tr) lines).2 s0).
Proof.
  revert sl tr. induction lines as [|l lines IH]; intros sl tr; [done|].
  cbn [foldl]. rewrite line_step_replay.
  destruct (line_step record_pair (sl, tr) l) as [sl' tr'].
  apply IH.
Qed.

Lemma processLines_replay lines (s : S) :
  processLines emit lines s = replay emit (emitted_by_lines lines) s.
Proof.
  unfold processLines, emitted_by_lines, processLines.
  change s with (replay emit [] s) at 1.
  by rewrite foldl_line_step_replay.
Qed.

End ReadLoopFacts.

(** C1.  One stream, framed as the server frames it, under four
    chunkings: delivered whole, or cut inside the [data: ] line, it yields
    its pair; cut between the [data: ] line and the [event: ] line, or in
    the middle of the [event: ] line, it yields nothing, because
    [processLines] starts every batch with empty slots.  The emitted pairs
    depend on the chunk boundaries. *)
Theorem chunk_boundary_changes_emitted_pairs :
  let whole := [ln "data: /message?sessionId=1" +:+ ln "event: endpoint"] in
  let between := [ln "data: /message?sessionId=1"; ln "event: endpoint"] in
  let midline := ["data: /message?sessionId=1" +:+ String Str.nl "eve";
                  ln "nt: endpoint"] in
  let in_data := ["data: /mess"; ln "age?sessionId=1" +:+ ln "event: endpoint"] in
  stream_of between = stream_of whole
  ∧ stream_of midline = stream_of whole
  ∧ stream_of in_data = stream_of whole
  ∧ framed (complete_lines (stream_of whole)) = true
  ∧ emitted_by_chunks whole = [("endpoint", "/message?sessionId=1")]
  ∧ emitted_by_chunks in_data = [("endpoint", "/message?sessionId=1")]
  ∧ emitted_by_chunks between = []
  ∧ emitted_by_chunks midline = [].
Proof. repeat split; vm_compute; reflexivity. Qed.

(** ** Connection manager and request correlator *)

Section BridgeFacts.
Variable JSON_parse : string → option MCPResponse.

Lemma timers_shrink_refl b : timers_shrink b b.
Proof. by repeat split. Qed.

Lemma timers_shrink_trans b1 b2 b3 :
  timers_shrink b1 b2 → timers_shrink b2 b3 → timers_shrink b1 b3.
Proof.
  intros (? & ? & ?) (? & ? & ?). repeat split; [|congruence..].
  by etrans.
Qed.

Lemma timers_shrink_ok b b' : timers_shrink b b' → timers_ok b → timers_ok b'.
Proof.
  intros (Hsub & Hn & Hr) (H1 & H2 & H3). repeat split.
  - intros t tm Ht. rewrite Hn. eapply H1, lookup_weaken; eauto.
  - intros t Ht. rewrite Hn. apply H2. congruence.
  - intros t (tm & Ht & Hcb). rewrite Hr. apply H3.
    exists tm. split; [|done]. eapply lookup_weaken; eauto.
Qed.

Lemma clearTimeout_shrink t b : timers_shrink b (clearTimeout t b).
Proof. repeat split. apply delete_subseteq. Qed.

Lemma settle_shrink p o b : timers_shrink b (settle p o b).
Proof. unfold settle. by destruct (promises b !! p). Qed.

Lemma set_pending_shrink m b : timers_shrink b (set_pending m b).
Proof. by repeat split. Qed.

Lemma handleResponse_shrink r b : timers_shrink b (handleResponse r b).
Proof.
  unfold handleResponse. destruct (r_id r) as [i|]; [|apply timers_shrink_refl].
  destruct (pendingRequests b !! i) as [w|]; [|apply timers_shrink_refl].
  eapply timers_shrink_trans; [|apply set_pending_shrink].
  eapply timers_shrink_trans; [apply clearTimeout_shrink | apply settle_shrink].
Qed.

Lemma dispatch_shrink ev data b : timers_shrink b (dispatch JSON_parse ev data b).
Proof.
  unfold dispatch. destruct (String.eqb ev "endpoint"); [by repeat split|].
  destruct (String.eqb ev "message"); [|apply timers_shrink_refl].
  destruct (JSON_parse data); [apply handleResponse_shrink | apply timers_shrink_refl].
Qed.

Lemma replay_dispatch_shrink pairs b :
  timers_shrink b (replay (dispatch JSON_parse) pairs b).
Proof.
  revert b. induction pairs as [|[ev d] pairs IH]; intros b.
  - apply timers_shrink_refl.
  - eapply timers_shrink_trans; [apply (dispatch_shrink ev d)|apply IH].
Qed.

Lemma read_chunk_shrink buffer value b :
  timers_shrink b (read_chunk (dispatch JSON_parse) buffer value b).2.
Proof.
  unfold read_chunk. cbn [snd]. rewrite processLines_replay.
  apply replay_dispatch_shrink.
Qed.

Lemma post_failed_shrink c e b : timers_shrink b (post_failed c e b).
Proof.
  unfold post_failed.
  eapply timers_shrink_trans; [|apply settle_shrink].
  eapply timers_shrink_trans; [apply set_pending_shrink | apply clearTimeout_shrink].
Qed.

Lemma fire_shrink t b : timers_shrink b (fire t b).
Proof.
  unfold fire. destruct (timers b !! t) as [tm|]; [|apply timers_shrink_refl].
  eapply timers_shrink_trans; [apply (clearTimeout_shrink t)|].
  destruct (callback_of tm) as [|i p].
  - unfold connect_begin. destruct (isConnecting _); by repeat split.
  - eapply timers_shrink_trans; [apply set_pending_shrink | apply settle_shrink].
Qed.

(** The state a call of [sendRequest] leaves. *)
Lemma sendRequest_state rand request b :
  (sendRequest rand request b).2
  = if endpoint_known (jbMessageEndpoint b)
    then (sendRequest_submit rand request b).2 else b.
Proof.
  unfold sendRequest. destruct (endpoint_known _); [|done].
  by destruct (sendRequest_submit rand request b).
Qed.

Lemma sendRequest_ok rand request b :
  timers_ok b → timers_ok (sendRequest rand request b).2.
Proof.
  rewrite sendRequest_state. destruct (endpoint_known _); [|done].
  intros (H1 & H2 & H3). unfold sendRequest_submit, set_pending. cbn.
  repeat split; unfold live_reconnect; simpl.
  - intros t tm [[<- _]|[_ Ht]]%lookup_insert_Some; [lia|].
    apply H1 in Ht. lia.
  - intros t Ht. apply H2 in Ht. lia.
  - intros t (tm & [[<- <-]|[_ Ht]]%lookup_insert_Some & Hcb); [done|].
    apply H3. by exists tm.
Qed.

(** What [scheduleReconnect] leaves: the timer it has just set, live and
    due in two seconds, stored in [reconnectTimer], and no other live
    reconnection timer; the handle stored before is cleared. *)
Lemma scheduleReconnect_spec b :
  timers_ok b →
  let b' := scheduleReconnect b in
  let t := next_timer b in
  jbMessageEndpoint b' = jbMessageEndpoint b
  ∧ reconnectTimer b' = Some t
  ∧ timers b' !! t = Some (Timer Reconnect 2000)
  ∧ (∀ t0, reconnectTimer b = Some t0 → t0 ≠ t ∧ timers b' !! t0 = None)
  ∧ (∀ t', live_reconnect b' t' → t' = t)
  ∧ timers_ok b'.
Proof.
  intros (H1 & H2 & H3). unfold scheduleReconnect.
  assert (∀ t' tm, t' ≠ next_timer b →
            match reconnectTimer b with
            | Some t0 => delete t0 (timers b)
            | None => timers b
            end !! t' = Some tm → callback_of tm = Reconnect → False) as Hold.
  { intros t' tm Hne Ht Hcb.
    destruct (reconnectTimer b) as [t0|] eqn:Hr.
    - apply lookup_delete_Some in Ht as [Hne' Ht].
      assert (Some t0 = Some t') as [= ->] by (apply H3; by exists tm). done.
    - assert (None = Some t') by (apply H3; by exists tm). done. }
  unfold timers_ok, live_reconnect, set_reconnectTimer.
  destruct (reconnectTimer b) as [t0|] eqn:Hr; cbn; split_and!.
  - done.
  - done.
  - by rewrite lookup_insert_eq.
  - intros ? [= <-]. specialize (H2 _ eq_refl). split; [lia|].
    rewrite lookup_insert_ne by lia. by rewrite lookup_delete_eq.
  - intros t' (tm & Ht & Hcb). destruct (decide (t' = next_timer b)); [done|].
    rewrite lookup_insert_ne in Ht by done. destruct (Hold t' tm); done.
  - intros t tm [[<- _]|[_ [_ Ht]%lookup_delete_Some]]%lookup_insert_Some; [lia|].
    apply H1 in Ht. lia.
  - intros t [= <-]. lia.
  - intros t' (tm & Ht & Hcb). destruct (decide (t' = next_timer b)) as [->|]; [done|].
    rewrite lookup_insert_ne in Ht by done. destruct (Hold t' tm); done.
  - done.
  - done.
  - by rewrite lookup_insert_eq.
  - done.
  - intros t' (tm & Ht & Hcb). destruct (decide (t' = next_timer b)); [done|].
    rewrite lookup_insert_ne in Ht by done. destruct (Hold t' tm); done.
  - intros t tm [[<- _]|[_ Ht]]%lookup_insert_Some; [lia|].
    apply H1 in Ht. lia.
  - intros t [= <-]. lia.
  - intros t' (tm & Ht & Hcb). destruct (decide (t' = next_timer b)) as [->|]; [done|].
    rewrite lookup_insert_ne in Ht by done. destruct (Hold t' tm); done.
Qed.

Lemma step_ok b e : timers_ok b → timers_ok (step JSON_parse b e).
Proof.
  intros Hok. destruct e; cbn [step].
  - eapply timers_shrink_ok; [|done]. by repeat split.
  - unfold connect_error. apply scheduleReconnect_spec.
    eapply timers_shrink_ok; [|done]. by repeat split.
  - by apply scheduleReconnect_spec.
  - eapply timers_shrink_ok; [apply read_chunk_shrink|done].
  - unfold stream_ended. apply scheduleReconnect_spec.
    eapply timers_shrink_ok; [|done]. by repeat split.
  - eapply timers_shrink_ok; [apply fire_shrink|done].
  - by apply sendRequest_ok.
  - destruct (posts b !! k); [|done].
    eapply timers_shrink_ok; [apply post_failed_shrink|done].
Qed.

Lemma new_bridge_ok : timers_ok new_bridge.
Proof.
  unfold timers_ok, live_reconnect. cbn. split_and!.
  - intros t tm Ht. by rewrite lookup_empty in Ht.
  - done.
  - intros t (tm & Ht & _). by rewrite lookup_empty in Ht.
Qed.

Lemma reachable_ok b : reachable JSON_parse b → timers_ok b.
Proof.
  intros [es ->]. unfold run.
  generalize new_bridge_ok. generalize new_bridge.
  induction es as [|e es IH]; intros b Hb; [done|].
  cbn [foldl]. apply IH. by apply step_ok.
Qed.

End BridgeFacts.

Lemma transformRequest_id request : id (transformRequest request) = id request.
Proof.
  unfold transformRequest. destruct (params request) as [ps|]; [|done].
  destruct (_ || _); [done|]. by destruct (rewrite_projectPath _).
Qed.

(** Submitting never settles a promise and never clears a timer: whatever
    was registered under the identifier is replaced as it stands. *)
Lemma sendRequest_replaces_registered_waiter rand request b i :
  id request = Some i →
  endpoint_known (jbMessageEndpoint b) = true →
  let b' := (sendRequest rand request b).2 in
  pendingRequests b' !! i = Some (Waiter (next_timer b) (next_promise b))
  ∧ promises b' = promises b
  ∧ timers b' = <[next_timer b := Timer (RequestExpiry i (next_promise b)) 30000]> (timers b).
Proof.
  intros Hi He. rewrite sendRequest_state, He.
  unfold sendRequest_submit. rewrite transformRequest_id, Hi. cbn.
  split_and!; [by rewrite lookup_insert_eq|done|done].
Qed.

(** C2.  Two requests with the identifier 7, the second submitted while
    the first is pending: the second registration replaces the first
    waiter, whose promise is neither resolved nor rejected and whose timer
    stays live; the response then completes the second caller only, and
    the first caller's timer, when it fires, unregisters the second
    waiter. *)
Theorem duplicate_identifier_overwrites_waiter :
  ∃ c1 b1 c2 b2,
  sendRequest "r1" (some_request 7) connected_bridge = (Posted c1, b1)
  ∧ sendRequest "r2" (some_request 7) b1 = (Posted c2, b2)
  ∧ pendingRequests b1 !! IdNum 7 = Some (Waiter (post_timeout c1) (post_promise c1))
  ∧ pendingRequests b2 !! IdNum 7 = Some (Waiter (post_timeout c2) (post_promise c2))
  ∧ post_promise c1 ≠ post_promise c2
  ∧ promises b2 !! post_promise c1 = None
  ∧ promises b2 !! post_promise c2 = None
  ∧ timers b2 !! post_timeout c1
    = Some (Timer (RequestExpiry (IdNum 7) (post_promise c1)) 30000)
  ∧ (let b3 := handleResponse (some_response 7) b2 in
     promises b3 !! post_promise c2 = Some (Resolved (some_response 7))
     ∧ promises b3 !! post_promise c1 = None)
  ∧ (let b3 := fire (post_timeout c1) b2 in
     promises b3 !! post_promise c1 = Some (Rejected RequestTimeout)
     ∧ pendingRequests b3 !! IdNum 7 = None
     ∧ promises b3 !! post_promise c2 = None).
Proof.
  pose (s1 := sendRequest_submit "r1" (some_request 7) connected_bridge).
  pose (s2 := sendRequest_submit "r2" (some_request 7) s1.2).
  exists s1.1, s1.2, s2.1, s2.2. vm_compute. split_and!; done.
Qed.

(** C6.  In every state the bridge can reach: when the stream ends or the
    connection fails, the endpoint is cleared and a reconnection timer due
    in 2000 ms is set and stored, the timer stored before is cancelled, and
    the new timer is the only live reconnection timer; and at any time at
    most one reconnection timer is live. *)
Theorem connection_loss_schedules_one_reconnect
    (JSON_parse : string → option MCPResponse) (b : bridge) :
  reachable JSON_parse b →
  (∀ b', b' = stream_ended b ∨ b' = connect_error b →
     jbMessageEndpoint b' = None
     ∧ ∃ t, reconnectTimer b' = Some t
          ∧ timers b' !! t = Some (Timer Reconnect 2000)
          ∧ (∀ t0, reconnectTimer b = Some t0 → t0 ≠ t ∧ timers b' !! t0 = None)
          ∧ (∀ t', live_reconnect b' t' → t' = t))
  ∧ (∀ t1 t2, live_reconnect b t1 → live_reconnect b t2 → t1 = t2).
Proof.
  intros Hok%reachable_ok. split.
  - intros b' Hb'.
    assert (∃ b0, timers_ok b0 ∧ b' = scheduleReconnect b0
                  ∧ jbMessageEndpoint b0 = None
                  ∧ reconnectTimer b0 = reconnectTimer b) as (b0 & Hok0 & -> & He & Hr).
    { destruct Hb' as [-> | ->].
      - by exists (set_endpoint None b).
      - by exists (set_connecting false (set_endpoint None b)). }
    destruct (scheduleReconnect_spec b0 Hok0) as (E & Ht & Hlive & Hold & Honly & _).
    split; [congruence|]. exists (next_timer b0). split_and!; try done.
    intros t0 Ht0. apply Hold. congruence.
  - destruct Hok as (_ & _ & H3). intros t1 t2 H1%H3 H2%H3. congruence.
Qed.

Lemma connection_loss_schedules_one_reconnect_witness :
  let b := run no_parse reconnecting_trace new_bridge in
  reachable no_parse b
  ∧ jbMessageEndpoint (stream_ended b) = None
  ∧ (∀ t1 t2, live_reconnect b t1 → live_reconnect b t2 → t1 = t2).
Proof.
  intros b.
  assert (reachable no_parse b) as Hb by (by exists reconnecting_trace).
  destruct (connection_loss_schedules_one_reconnect no_parse b Hb) as [Hloss Hone].
  split_and!; [done| |done].
  apply (Hloss (stream_ended b)). by left.
Defined.

Section CorrelatorFacts.
Variable JSON_parse : string → option MCPResponse.

Lemma correlator_frame_refl b : correlator_frame b b.
Proof. by split_and!. Qed.

Lemma correlator_frame_trans b1 b2 b3 :
  correlator_frame b1 b2 → correlator_frame b2 b3 → correlator_frame b1 b3.
Proof.
  intros (? & ? & ? & ? & H12) (? & ? & ? & ? & H23).
  split_and!; [congruence..|]. eauto.
Qed.

Lemma correlator_frame_ok b b' :
  correlator_frame b b' → promises_ok b → promises_ok b'.
Proof.
  intros (Hp & Hw & Hn & Hc & Ht) (H1 & H2 & H3 & H4).
  unfold promises_ok, owned_by. rewrite Hp, Hw, Hn, Hc.
  split_and!; [done|done| |done].
  intros t i p ms Htm%Ht. by apply (H3 t i p ms).
Qed.

Lemma clearTimeout_frame t b : correlator_frame b (clearTimeout t b).
Proof.
  split_and!; try done. cbn. by intros t' i p ms [_ ?]%lookup_delete_Some.
Qed.

Lemma scheduleReconnect_frame b : correlator_frame b (scheduleReconnect b).
Proof.
  unfold scheduleReconnect, set_reconnectTimer.
  destruct (reconnectTimer b) as [t0|]; cbn; split_and!; try done; cbn.
  - intros t i p ms [[_ [=]]|[_ [_ ?]%lookup_delete_Some]]%lookup_insert_Some. done.
  - intros t i p ms [[_ [=]]|[_ ?]]%lookup_insert_Some. done.
Qed.

Lemma finish_ok i p o b :
  promises_ok b → owned_by b p i → promises_ok (finish i p o b).
Proof.
  intros (H1 & H2 & H3 & H4) [Hlt Hown].
  assert (∀ q j, owned_by b q j →
                 q < next_promise b
                 ∧ ∀ i' w, delete i (pendingRequests b) !! i' = Some w →
                           w_promise w = q → i' = j) as Hmono.
  { intros q j [Hq Hj]. split; [done|].
    intros i' w [_ Hw]%lookup_delete_Some. by apply Hj. }
  unfold finish, settle, set_pending. cbn.
  destruct (promises b !! p) as [o'|] eqn:Hp; unfold promises_ok, owned_by; cbn.
  - split_and!.
    + done.
    + intros i' w Hw. pose proof Hw as [_ Hw']%lookup_delete_Some.
      destruct (H2 _ _ Hw') as [Hnone Ho]. split; [done|]. by apply Hmono.
    + intros t j q ms Ht. apply Hmono. by apply (H3 t j q ms).
    + intros k c Hk. apply Hmono. by apply (H4 k).
  - split_and!.
    + intros q o' [[<- _]|[_ Hq]]%lookup_insert_Some; [done|]. by apply (H1 q o').
    + intros i' w Hw. pose proof Hw as [Hne Hw']%lookup_delete_Some.
      destruct (H2 _ _ Hw') as [Hnone Ho]. split; [|by apply Hmono].
      rewrite lookup_insert_ne; [done|].
      intros Heq. destruct Hne. symmetry. by apply (Hown i' w).
    + intros t j q ms Ht. apply Hmono. by apply (H3 t j q ms).
    + intros k c Hk. apply Hmono. by apply (H4 k).
Qed.

Lemma handleResponse_finish r b i w :
  r_id r = Some i → pendingRequests b !! i = Some w →
  handleResponse r b
  = finish i (w_promise w) (Resolved r) (clearTimeout (w_timeout w) b).
Proof.
  intros Hi Hw. unfold handleResponse, finish, waiter_resolve, settle.
  rewrite Hi, Hw. cbn. by destruct (promises b !! w_promise w).
Qed.

Lemma handleResponse_ok r b : promises_ok b → promises_ok (handleResponse r b).
Proof.
  intros Hok.
  destruct (r_id r) as [i|] eqn:Hi; [|unfold handleResponse; by rewrite Hi].
  destruct (pendingRequests b !! i) as [w|] eqn:Hw;
    [|unfold handleResponse; by rewrite Hi, Hw].
  rewrite (handleResponse_finish r b i w Hi Hw).
  apply finish_ok.
  - eapply correlator_frame_ok; [apply clearTimeout_frame|done].
  - destruct Hok as (_ & H2 & _). by destruct (H2 i w Hw).
Qed.

Lemma dispatch_ok ev data b :
  promises_ok b → promises_ok (dispatch JSON_parse ev data b).
Proof.
  intros Hok. unfold dispatch.
  destruct (String.eqb ev "endpoint").
  { eapply correlator_frame_ok; [|done]. by split_and!. }
  destruct (String.eqb ev "message"); [|done].
  destruct (JSON_parse data); [by apply handleResponse_ok|done].
Qed.

Lemma replay_dispatch_ok pairs b :
  promises_ok b → promises_ok (replay (dispatch JSON_parse) pairs b).
Proof.
  revert b. induction pairs as [|[ev d] pairs IH]; intros b Hok; [done|].
  apply IH. by apply dispatch_ok.
Qed.

Lemma fire_ok t b : promises_ok b → promises_ok (fire t b).
Proof.
  intros Hok. unfold fire. destruct (timers b !! t) as [[cb ms]|] eqn:Ht; [|done].
  destruct cb as [|i p]; cbn [callback_of].
  - eapply correlator_frame_ok; [|done].
    eapply correlator_frame_trans; [apply (clearTimeout_frame t)|].
    unfold connect_begin. destruct (isConnecting _); by split_and!.
  - change (promises_ok (finish i p (Rejected RequestTimeout) (clearTimeout t b))).
    apply finish_ok.
    + eapply correlator_frame_ok; [apply clearTimeout_frame|done].
    + destruct Hok as (_ & _ & H3 & _). apply (H3 t i p ms Ht).
Qed.

Lemma post_failed_ok k c error b :
  posts b !! k = Some c → promises_ok b → promises_ok (post_failed c error b).
Proof.
  intros Hk Hok.
  change (promises_ok (finish (post_id c) (post_promise c)
                              (Rejected (TransportError error))
                              (clearTimeout (post_timeout c) b))).
  apply finish_ok.
  - eapply correlator_frame_ok; [apply clearTimeout_frame|done].
  - destruct Hok as (_ & _ & _ & H4). apply (H4 k c Hk).
Qed.

Lemma sendRequest_promises_ok rand request b :
  promises_ok b → promises_ok (sendRequest rand request b).2.
Proof.
  rewrite sendRequest_state. destruct (endpoint_known _); [|done].
  intros (H1 & H2 & H3 & H4). unfold sendRequest_submit.
  set (i := default (IdStr rand) (id (transformRequest request))).
  unfold promises_ok, owned_by, start_post, set_pending. cbn.
  assert (promises b !! next_promise b = None) as Hfresh.
  { destruct (promises b !! next_promise b) as [o|] eqn:E; [|done].
    apply H1 in E. lia. }
  assert (∀ q j, owned_by b q j →
            q < S (next_promise b)
            ∧ ∀ i' w, <[i := Waiter (next_timer b) (next_promise b)]>
                        (pendingRequests b) !! i' = Some w →
                      w_promise w = q → i' = j) as Hold.
  { intros q j [Hq Hj]. split; [lia|].
    intros i' w [[_ <-]|[_ Hw]]%lookup_insert_Some Hwq; [cbn in Hwq; lia|].
    by apply (Hj i' w). }
  assert (∀ i' w, <[i := Waiter (next_timer b) (next_promise b)]>
                    (pendingRequests b) !! i' = Some w →
                  w_promise w = next_promise b → i' = i) as Hnew.
  { intros i' w [[? _]|[_ Hw]]%lookup_insert_Some Hwq; [done|].
    destruct (H2 _ _ Hw) as [_ [Hlt _]]. lia. }
  split_and!.
  - intros p o Hp%H1. lia.
  - intros i' w Hw. pose proof Hw as [[<- <-]|[_ Hw']]%lookup_insert_Some.
    + cbn. split; [done|]. split; [lia|]. done.
    + destruct (H2 _ _ Hw') as [Hnone Ho]. split; [done|]. by apply Hold.
  - intros t j q ms [[_ [= <- <- _]]|[_ Ht]]%lookup_insert_Some.
    + split; [lia|done].
    + apply Hold. by apply (H3 t j q ms).
  - intros k c [Hk|[_ Hk]]%lookup_app_Some.
    + apply Hold. by apply (H4 k).
    + apply list_lookup_singleton_Some in Hk as [_ <-]. cbn. split; [lia|done].
Qed.

Lemma step_promises_ok b e :
  promises_ok b → promises_ok (step JSON_parse b e).
Proof.
  intros Hok. destruct e; cbn [step].
  - eapply correlator_frame_ok; [|done]. by split_and!.
  - eapply correlator_frame_ok; [|done]. unfold connect_error.
    eapply correlator_frame_trans; [|apply scheduleReconnect_frame]. by split_and!.
  - eapply correlator_frame_ok; [apply scheduleReconnect_frame|done].
  - unfold read_chunk. cbn [snd]. rewrite processLines_replay.
    by apply replay_dispatch_ok.
  - eapply correlator_frame_ok; [|done]. unfold stream_ended.
    eapply correlator_frame_trans; [|apply scheduleReconnect_frame]. by split_and!.
  - by apply fire_ok.
  - by apply sendRequest_promises_ok.
  - destruct (posts b !! k) as [c|] eqn:Hk; [|done].
    by apply (post_failed_ok k).
Qed.

Lemma reachable_promises_ok b : reachable JSON_parse b → promises_ok b.
Proof.
  intros [es ->]. unfold run.
  assert (promises_ok new_bridge) as H0.
  { unfold promises_ok, owned_by. cbn. split_and!.
    - intros p o Hp. by rewrite lookup_empty in Hp.
    - intros i w Hw. by rewrite lookup_empty in Hw.
    - intros t i p ms Ht. by rewrite lookup_empty in Ht.
    - intros k c Hk. done. }
  revert H0. generalize new_bridge.
  induction es as [|e es IH]; intros b Hb; [done|].
  cbn [foldl]. apply IH. by apply step_promises_ok.
Qed.

(** What the [catch] handler of a POST does when the caller is still
    waiting. *)
Lemma post_failed_pending (b : bridge) (c : post) (error : string) :
  promises b !! post_promise c = None →
  let b' := post_failed c error b in
  pendingRequests b' !! post_id c = None
  ∧ timers b' !! post_timeout c = None
  ∧ promises b' !! post_promise c = Some (Rejected (TransportError error)).
Proof.
  intros Hp. unfold post_failed, settle, clearTimeout, set_pending. cbn.
  rewrite Hp. cbn. by rewrite !lookup_delete_eq, lookup_insert_eq.
Qed.

End CorrelatorFacts.

(** The handler never leaves a waiter under the identifier nor the timer
    live, whether or not the caller is still waiting; a caller already
    completed keeps the outcome it has. *)
Lemma post_failed_late (b : bridge) (c : post) (error : string) (o : outcome) :
  promises b !! post_promise c = Some o →
  let b' := post_failed c error b in
  pendingRequests b' !! post_id c = None
  ∧ timers b' !! post_timeout c = None
  ∧ promises b' = promises b.
Proof.
  intros Hp. unfold post_failed, settle, clearTimeout, set_pending. cbn.
  rewrite Hp. cbn. by rewrite !lookup_delete_eq.
Qed.

(** C7, as amended.  When the POST of a submitted request fails, whatever
    is registered under the identifier of the request is removed at once
    and the timer of the request is cancelled; and if the caller has not
    been completed before, by a response or by the 30-second timeout, its
    promise is rejected with the transport error. *)
Theorem post_failure_removes_waiter_and_fails_caller
    (JSON_parse : string → option MCPResponse)
    (b : bridge) (k : nat) (c : post) (error : string) :
  posts b !! k = Some c →
  let b' := step JSON_parse b (PostFailed k error) in
  pendingRequests b' !! post_id c = None
  ∧ timers b' !! post_timeout c = None
  ∧ (promises b !! post_promise c = None →
     promises b' !! post_promise c = Some (Rejected (TransportError error))).
Proof.
  intros Hk. cbn [step]. rewrite Hk. cbv zeta.
  destruct (promises b !! post_promise c) as [o|] eqn:Hp.
  - destruct (post_failed_late b c error o Hp) as (H1 & H2 & _). by split_and!.
  - destruct (post_failed_pending b c error Hp) as (H1 & H2 & H3). by split_and!.
Qed.

Lemma post_failure_removes_waiter_and_fails_caller_witness :
  let b := run no_parse
               [ConnectOpened;
                StreamChunk "" (ln "data: /message" +:+ ln "event: endpoint");
                Submitted "r1" (some_request 7)] new_bridge in
  let b' := step no_parse b (PostFailed 0 "ECONNREFUSED") in
  jbMessageEndpoint b = Some "/message"
  ∧ is_Some (pendingRequests b !! IdNum 7)
  ∧ pendingRequests b' !! IdNum 7 = None
  ∧ promises b' !! 0 = Some (Rejected (TransportError "ECONNREFUSED")).
Proof.
  intros b b'.
  destruct (post_failure_removes_waiter_and_fails_caller
              no_parse b 0
              (Post (IdNum 7) 0 0 (Some "/message")
                    {| jsonrpc := "2.0"; id := Some (IdNum 7);
                       method := "tools/list"; params := None |})
              "ECONNREFUSED" eq_refl) as (H1 & H2 & H3).
  split_and!; [reflexivity | by eexists | exact H1 | exact (H3 eq_refl)].
Defined.

(** C7, as stated, fails when the POST fails late.  The endpoint is learnt,
    a request with the identifier 7 is submitted, its 30-second timer fires
    and fails the caller with the request timeout, and only then the POST
    fails: the caller keeps the timeout error and is not failed with the
    transport error. *)
Lemma post_failure_after_timeout_keeps_timeout_error :
  let b := run no_parse
               [ConnectOpened;
                StreamChunk "" (ln "data: /message" +:+ ln "event: endpoint");
                Submitted "r1" (some_request 7);
                TimerFired 0] new_bridge in
  let b' := step no_parse b (PostFailed 0 "ECONNREFUSED") in
  (∃ c, posts b !! 0 = Some c ∧ post_id c = IdNum 7 ∧ post_promise c = 0
        ∧ post_endpoint c = Some "/message")
  ∧ promises b' !! 0 = Some (Rejected RequestTimeout)
  ∧ promises b' !! 0 ≠ Some (Rejected (TransportError "ECONNREFUSED")).
Proof.
  intros b b'. split_and!.
  - eexists. by split_and!.
  - reflexivity.
  - by vm_compute.
Qed.

(** C8.  A response whose identifier has no registered waiter leaves the
    whole state as it is, fields, timers and promises alike: no promise
    is settled and the registry is unchanged.  The same holds when it
    comes in through the parser as a [message] event, and when the payload
    of a [message] event does not parse. *)
Theorem unmatched_response_is_dropped
    (JSON_parse : string → option MCPResponse) (b : bridge) (response : MCPResponse) :
  (∀ i, r_id response = Some i → pendingRequests b !! i = None) →
  handleResponse response b = b
  ∧ (∀ data, JSON_parse data = Some response →
             dispatch JSON_parse "message" data b = b)
  ∧ (∀ data, JSON_parse data = None → dispatch JSON_parse "message" data b = b).
Proof.
  intros Hnone.
  assert (handleResponse response b = b) as Hh.
  { unfold handleResponse. destruct (r_id response) as [i|]; [|done].
    by rewrite (Hnone i eq_refl). }
  split_and!; [done| |].
  - intros data Hd. unfold dispatch. cbn. by rewrite Hd.
  - intros data Hd. unfold dispatch. cbn. by rewrite Hd.
Qed.

Lemma unmatched_response_is_dropped_witness :
  let b := (sendRequest "r1" (some_request 7) connected_bridge).2 in
  is_Some (pendingRequests b !! IdNum 7)
  ∧ handleResponse (some_response 8) b = b.
Proof.
  intros b. split; [by eexists|].
  apply (unmatched_response_is_dropped no_parse b (some_response 8)).
  intros i [= <-]. reflexivity.
Defined.

(** * Further properties of the code *)

(** ** Path translator: the virtual-workspace segment *)

Section NormalizeFacts.
Import Str StrFacts RegexFacts.

(** The expression cannot match where the text does not go on with [/@]. *)
Lemma match_virtual_workspace_head at0 x s :
  (∀ y s', s = String y s' → y ≠ "@"%char) →
  x ≠ "@"%char →
  match_here re_virtual_workspace at0 (String x s) = None.
Proof.
  intros Hs Hx. unfold re_virtual_workspace. cbn [match_here].
  destruct (chr "/" x); [|done].
  destruct s as [|y s']; [done|]. cbn [match_here].
  destruct (chr "@" y) eqn:Hy; [|done].
  apply chr_true in Hy. by destruct (Hs y s' eq_refl).
Qed.

Lemma search_virtual_workspace_none at0 p :
  free_of "@" p = true → search re_virtual_workspace at0 p = None.
Proof.
  revert at0. induction p as [|x p IH]; intros at0 Hf; [done|].
  simpl in Hf. apply andb_true_iff in Hf as [Hx Hf].
  apply negb_true_iff, Ascii.eqb_neq in Hx.
  rewrite search_unfold.
  rewrite match_virtual_workspace_head; [by rewrite IH| |done].
  intros y s' -> ->. by simpl in Hf.
Qed.

Lemma search_virtual_workspace_first at0 a w b :
  free_of "@" a = true → is_name "/" w →
  search re_virtual_workspace at0 (a +:+ "/@" +:+ w +:+ "/" +:+ b)
  = Some (Found a [] b).
Proof.
  intros Ha Hw. revert at0. induction a as [|x a IH]; intros at0.
  - rewrite search_unfold.
    change ("" +:+ "/@" +:+ w +:+ "/" +:+ b)
      with (String "/" (String "@" (w +:+ String "/" b))).
    unfold re_virtual_workspace. cbn [match_here].
    rewrite (proj2 (chr_true "/" "/") eq_refl), (proj2 (chr_true "@" "@") eq_refl).
    by rewrite many_to_sep_complete.
  - simpl in Ha. apply andb_true_iff in Ha as [Hx Ha].
    apply negb_true_iff, Ascii.eqb_neq in Hx.
    rewrite app_cons, search_unfold.
    rewrite match_virtual_workspace_head; [by rewrite IH| |done].
    intros y s' E Hy. destruct a as [|z a].
    + injection E as E1 E2. congruence.
    + rewrite app_cons in E. injection E as E1 E2.
      assert (z = "@"%char) as -> by congruence. by simpl in Ha.
Qed.

End NormalizeFacts.

(** X1.  A path in which [@] does not occur is left as it is by the
    stripping step, so [unixToWslPath] only puts the WSL root in front of
    it. *)
Theorem unixToWslPath_plain (p : string) :
  Str.free_of "@" p = true →
  normalize p = p ∧ unixToWslPath p = "//wsl.localhost/Ubuntu" +:+ p.
Proof.
  intros Hf. unfold unixToWslPath.
  assert (normalize p = p) as ->; [|done].
  unfold normalize, replace, exec. by rewrite search_virtual_workspace_none.
Qed.

Lemma unixToWslPath_plain_witness :
  unixToWslPath "/home/user/project" = "//wsl.localhost/Ubuntu/home/user/project".
Proof.
  apply (unixToWslPath_plain "/home/user/project"). reflexivity.
Defined.

(** X2.  When [@] does not occur before it, a component [@name] (a name
    that is not empty and has no slash, closed by a slash) is removed
    together with the slash in front of it; what follows is kept as it is,
    further [@] components included. *)
Theorem normalize_strips_first_segment (a w b : string) :
  Str.free_of "@" a = true →
  w ≠ "" → Str.free_of "/" w = true →
  normalize (a +:+ "/@" +:+ w +:+ "/" +:+ b) = a +:+ "/" +:+ b.
Proof.
  intros Ha Hne Hw. unfold normalize, replace, exec.
  by rewrite search_virtual_workspace_first.
Qed.

Lemma normalize_strips_first_segment_witness :
  normalize "/home/user/@ws/dev/@other/x" = "/home/user/dev/@other/x".
Proof.
  apply (normalize_strips_first_segment "/home/user" "ws" "dev/@other/x");
    [reflexivity | discriminate | reflexivity].
Defined.

(** X3.  Whatever the path, the stripping step returns it unchanged or
    with exactly one component [@name] (and the slash before it) taken
    out: it never removes anything else. *)
Theorem normalize_removes_at_most_one_segment (p : string) :
  normalize p = p ∨
  ∃ a w b, p = a +:+ "/@" +:+ w +:+ "/" +:+ b
           ∧ w ≠ "" ∧ Str.free_of "/" w = true
           ∧ normalize p = a +:+ "/" +:+ b.
Proof.
  destruct (normalize_cases p) as [H|(a & w & b & Hp & [Hne Hf] & Hn)]; [by left|].
  right. by exists a, w, b.
Qed.

(** ** Path translator: classification *)

Section ClassifyFacts.
Import Str StrFacts RegexFacts.

Lemma startsWith_compatible a b p :
  startsWith a p = true → startsWith b p = true → compatible a b = true.
Proof.
  unfold compatible. revert b p.
  induction a as [|x a IH]; intros b p Ha Hb; [done|].
  destruct b as [|y b]; [done|].
  destruct p as [|z p]; [done|].
  simpl in Ha, Hb. cbn [startsWith].
  destruct (Ascii.eqb_spec x z) as [->|]; [|done].
  destruct (Ascii.eqb_spec y z) as [->|]; [|done].
  rewrite Ascii.eqb_refl. by apply (IH b p).
Qed.

Lemma startsWith_nonempty a c p :
  startsWith (String c a) p = true → is_empty p = false.
Proof. by destruct p. Qed.

Lemma drive_prefix_letter x a p :
  test re_drive p = true → startsWith (String x a) p = true → is_letter x = true.
Proof.
  intros (c & r & -> & Hc)%test_drive_spec H. simpl in H.
  by destruct (Ascii.eqb_spec x c) as [->|].
Qed.

Lemma incompatible_prefixes a b p :
  startsWith a p = true → compatible a b = false → startsWith b p = false.
Proof.
  intros Ha Hab. destruct (startsWith b p) eqn:Hb; [|done].
  by rewrite (startsWith_compatible a b p Ha Hb) in Hab.
Qed.

Lemma wsl_prefixed_excludes p :
  wsl_prefixed p = true →
  is_empty p = false ∧ unix_prefixed p = false ∧ test re_drive p = false.
Proof.
  unfold wsl_prefixed, unix_prefixed.
  intros [H|H]%orb_true_iff;
    (split_and!;
     [ by eapply startsWith_nonempty
     | by rewrite (incompatible_prefixes _ "/home/" p H eq_refl),
                  (incompatible_prefixes _ "/Users/" p H eq_refl),
                  (incompatible_prefixes _ "/tmp/" p H eq_refl)
     | destruct (test re_drive p) eqn:E; [|done];
       by pose proof (drive_prefix_letter _ _ _ E H) ]).
Qed.

Lemma unix_prefixed_excludes p :
  unix_prefixed p = true → is_empty p = false ∧ test re_drive p = false.
Proof.
  unfold unix_prefixed.
  intros [[H|H]%orb_true_iff|H]%orb_true_iff;
    (split; [by eapply startsWith_nonempty|]);
    (destruct (test re_drive p) eqn:E; [|done]);
    by pose proof (drive_prefix_letter _ _ _ E H).
Qed.

Lemma drive_nonempty p : test re_drive p = true → is_empty p = false.
Proof. by intros (c & r & -> & _)%test_drive_spec. Qed.

Lemma classifyPath_tests p :
  classifyPath p =
  if is_empty p then relative
  else if wsl_prefixed p then wsl
  else if unix_prefixed p then unix
  else if test re_drive p then windows
  else relative.
Proof. reflexivity. Qed.

End ClassifyFacts.

(** X4.  The four tests of [classifyPath] exclude one another, so their
    order does not matter: a path is [wsl] exactly when it starts with one
    of the two WSL roots, [unix] exactly when it starts with [/home/],
    [/Users/] or [/tmp/], [windows] exactly when it starts with a letter
    and a colon, and [relative] exactly when none of these holds (the empty
    path included). *)
Theorem classifyPath_spec (p : string) :
  (classifyPath p = wsl ↔ wsl_prefixed p = true)
  ∧ (classifyPath p = unix ↔ unix_prefixed p = true)
  ∧ (classifyPath p = windows ↔ test re_drive p = true)
  ∧ (classifyPath p = relative ↔
     wsl_prefixed p = false ∧ unix_prefixed p = false ∧ test re_drive p = false).
Proof.
  pose proof (wsl_prefixed_excludes p) as Hw.
  pose proof (unix_prefixed_excludes p) as Hu.
  pose proof (drive_nonempty p) as Hd.
  rewrite classifyPath_tests.
  destruct (wsl_prefixed p), (unix_prefixed p), (test re_drive p), (Str.is_empty p);
    repeat match goal with
           | H : true = true → _ |- _ => specialize (H eq_refl)
           | H : false = true → _ |- _ => clear H
           end;
    intuition congruence.
Qed.

(** ** Request rewriting as a whole *)

Section TransformFacts.
Import Str StrFacts.

(** A request the translator works on: a tool call with arguments. *)
Lemma transformRequest_tool_call request ps v :
  method request = "tools/call" →
  params request = Some ps →
  ps !! "arguments" = Some v →
  truthy (Some v) = true →
  transformRequest request
  = {| jsonrpc := jsonrpc request; id := id request; method := method request;
       params := Some (<["arguments" := JObj (rewritten_args (spread v))]> ps) |}.
Proof.
  intros Hm Hps Hv Ht. unfold transformRequest, rewritten_args.
  rewrite Hps, Hm, Hv, Ht, String.eqb_refl. cbn [negb orb].
  change (default JNull (Some v)) with v.
  destruct (rewrite_projectPath (spread v)) as [[t|] args]; [|done].
  by destruct (is_empty t).
Qed.

(** Every other request is handed back as it is. *)
Lemma transformRequest_other request :
  method request ≠ "tools/call"
  ∨ truthy (params request ≫= (.!! "arguments")) = false →
  transformRequest request = request.
Proof.
  unfold transformRequest. destruct (params request) as [ps|]; [|done].
  cbn [mbind option_bind].
  intros [Hm| ->]; [|by rewrite orb_true_r].
  destruct (String.eqb_spec (method request) "tools/call"); done.
Qed.

Lemma transformRequest_cases request :
  transformRequest request = request
  ∨ ∃ ps v, method request = "tools/call" ∧ params request = Some ps
            ∧ ps !! "arguments" = Some v ∧ truthy (Some v) = true.
Proof.
  destruct (String.eqb_spec (method request) "tools/call") as [Hm|Hm];
    [|left; apply transformRequest_other; by left].
  destruct (params request) as [ps|] eqn:Hps;
    [|left; unfold transformRequest; by rewrite Hps].
  destruct (truthy (ps !! "arguments")) eqn:Ht.
  - destruct (ps !! "arguments") as [v|] eqn:Hv; [|done].
    right. by exists ps, v.
  - left. apply transformRequest_other. right. by rewrite Hps.
Qed.

Lemma rewritten_args_projectPath_other (a : gmap string jvalue) :
  (∀ pp, a !! "projectPath" = Some (JStr pp) → classifyPath pp ≠ unix) →
  rewritten_args a = a.
Proof.
  intros H. unfold rewritten_args, rewrite_projectPath.
  destruct (a !! "projectPath") as [[| | |pp| |]|]; try done.
  specialize (H pp eq_refl).
  destruct (is_empty pp); [done|]. by destruct (classifyPath pp).
Qed.

Lemma rewritten_args_unix (a : gmap string jvalue) pp :
  a !! "projectPath" = Some (JStr pp) → classifyPath pp = unix →
  rewritten_args a =
  let a1 := <["projectPath" := JStr (unixToWslPath pp)]> a in
  match extractProjectSubfolder pp with
  | Some t => foldl (prepend_key t) a1 relativePathKeys
  | None => a1
  end.
Proof.
  intros Hpp Hc. unfold rewritten_args, rewrite_projectPath.
  rewrite Hpp, (classifyPath_unix_nonempty _ Hc), Hc.
  destruct (extractProjectSubfolder pp) as [t|] eqn:Ht; [|done].
  by rewrite (extractProjectSubfolder_nonempty _ _ Ht).
Qed.

Lemma rewritten_args_lookup_projectPath (a : gmap string jvalue) pp :
  a !! "projectPath" = Some (JStr pp) → classifyPath pp = unix →
  rewritten_args a !! "projectPath" = Some (JStr (unixToWslPath pp)).
Proof.
  intros Hpp Hc. rewrite (rewritten_args_unix a pp Hpp Hc). cbv zeta.
  destruct (extractProjectSubfolder pp) as [t|].
  - rewrite prepend_keys_lookup by apply relativePathKeys_NoDup.
    rewrite decide_False by apply projectPath_not_relative_key.
    by rewrite lookup_insert_eq.
  - by rewrite lookup_insert_eq.
Qed.

Lemma rewritten_args_idemp (a : gmap string jvalue) :
  rewritten_args (rewritten_args a) = rewritten_args a.
Proof.
  destruct (a !! "projectPath") as [[| | |pp| |]|] eqn:Hpp;
    try (rewrite (rewritten_args_projectPath_other a);
         [|intros pp'; by rewrite Hpp];
         apply rewritten_args_projectPath_other; intros pp'; by rewrite Hpp).
  destruct (classifyPath pp) eqn:Hc;
    try (rewrite (rewritten_args_projectPath_other a);
         [|intros pp'; rewrite Hpp; intros [= <-]; by rewrite Hc];
         apply rewritten_args_projectPath_other;
         intros pp'; rewrite Hpp; intros [= <-]; by rewrite Hc).
  apply rewritten_args_projectPath_other. intros pp'.
  rewrite (rewritten_args_lookup_projectPath a pp Hpp Hc). intros [= <-].
  rewrite unixToWslPath_prefix, classifyPath_wsl_prefix. done.
Qed.

Lemma arguments_of_transformRequest request a :
  arguments_of request = Some a →
  arguments_of (transformRequest request)
  = Some (if String.eqb (method request) "tools/call" then rewritten_args a else a).
Proof.
  intros Ha. pose proof Ha as Ha'. unfold arguments_of in Ha'.
  destruct (params request) as [ps|] eqn:Hps; [|done].
  destruct (ps !! "arguments") as [[| | | | |m]|] eqn:Hv; try done.
  injection Ha' as ->.
  destruct (String.eqb_spec (method request) "tools/call") as [Hm|Hm].
  - rewrite (transformRequest_tool_call request ps (JObj a) Hm Hps Hv eq_refl).
    unfold arguments_of. cbn [params]. by rewrite lookup_insert_eq.
  - rewrite transformRequest_other by (by left). done.
Qed.

End TransformFacts.

(** X5.  Translating a request a second time changes nothing: the
    rewritten [projectPath] is a WSL path, so the second pass derives no
    subfolder and prefixes nothing again. *)
Theorem transformRequest_idempotent (request : MCPRequest) :
  transformRequest (transformRequest request) = transformRequest request.
Proof.
  destruct (transformRequest_cases request) as [E|(ps & v & Hm & Hps & Hv & Ht)];
    [by rewrite !E|].
  rewrite (transformRequest_tool_call request ps v Hm Hps Hv Ht).
  erewrite transformRequest_tool_call;
    [|done|done|apply lookup_insert_eq|done].
  cbn [jsonrpc id method params spread].
  by rewrite rewritten_args_idemp, insert_insert_eq.
Qed.

(** X6.  The translator touches nothing but [params.arguments]: the
    protocol tag, the identifier and the method are kept, [params] is
    present after exactly when it was before, and every other member of
    [params] keeps its value. *)
Theorem transformRequest_keeps_envelope (request : MCPRequest) :
  jsonrpc (transformRequest request) = jsonrpc request
  ∧ id (transformRequest request) = id request
  ∧ method (transformRequest request) = method request
  ∧ (params (transformRequest request) = None ↔ params request = None)
  ∧ (∀ key, key ≠ "arguments" →
            params (transformRequest request) ≫= (.!! key)
            = params request ≫= (.!! key)).
Proof.
  destruct (transformRequest_cases request) as [E|(ps & v & Hm & Hps & Hv & Ht)];
    [by rewrite !E|].
  rewrite (transformRequest_tool_call request ps v Hm Hps Hv Ht).
  cbn [jsonrpc id method params]. rewrite Hps. split_and!; try done.
  intros key Hkey. cbn [mbind option_bind]. by rewrite lookup_insert_ne.
Qed.

(** X7.  An argument of a request with an [arguments] object is changed
    only if it is [projectPath], or if it is one of the seven path keys and
    [projectPath] holds a unix path from which a subfolder is derived. *)
Theorem transformRequest_changes_only_paths
    (request : MCPRequest) (a : gmap string jvalue) (key : string) :
  arguments_of request = Some a →
  argument (transformRequest request) key ≠ a !! key →
  key = "projectPath"
  ∨ (key ∈ relativePathKeys
     ∧ ∃ pp t, a !! "projectPath" = Some (JStr pp)
               ∧ classifyPath pp = unix
               ∧ extractProjectSubfolder pp = Some t).
Proof.
  intros Ha Hch. unfold argument in Hch.
  rewrite (arguments_of_transformRequest request a Ha) in Hch.
  destruct (String.eqb (method request) "tools/call"); [|done].
  destruct (decide (key = "projectPath")) as [|Hkey]; [by left|right].
  destruct (a !! "projectPath") as [[| | |pp| |]|] eqn:Hpp;
    try (rewrite rewritten_args_projectPath_other in Hch; [done|];
         intros pp'; by rewrite Hpp).
  destruct (classifyPath pp) eqn:Hc;
    try (rewrite rewritten_args_projectPath_other in Hch; [done|];
         intros pp'; rewrite Hpp; intros [= <-]; by rewrite Hc).
  rewrite (rewritten_args_unix a pp Hpp Hc) in Hch. cbv zeta in Hch.
  destruct (extractProjectSubfolder pp) as [t|] eqn:Ht.
  - rewrite prepend_keys_lookup in Hch by apply relativePathKeys_NoDup.
    destruct (decide (key ∈ relativePathKeys)) as [Hin|Hout].
    + split; [done|]. by exists pp, t.
    + by rewrite lookup_insert_ne in Hch.
  - by rewrite lookup_insert_ne in Hch.
Qed.

Lemma transformRequest_changes_only_paths_witness :
  let args : gmap string jvalue :=
    {[ "projectPath" := JStr "/home/user/dev/myproject";
       "path" := JStr "src/app"; "query" := JStr "src/app" ]} in
  argument (transformRequest (tool_call args)) "query" = Some (JStr "src/app")
  ∧ ("path" = "projectPath"
     ∨ ("path" ∈ relativePathKeys
        ∧ ∃ pp t, args !! "projectPath" = Some (JStr pp)
                  ∧ classifyPath pp = unix
                  ∧ extractProjectSubfolder pp = Some t)).
Proof.
  intros args. split; [reflexivity|].
  apply (transformRequest_changes_only_paths (tool_call args) args "path");
    [reflexivity|]. vm_compute. discriminate.
Defined.

(** X8.  In a tool call with an [arguments] object, a [projectPath] that
    is a unix path is replaced by its WSL form whether or not a subfolder
    can be derived from it; a [projectPath] that is a string of any other
    class stays as it is. *)
Theorem transformRequest_projectPath
    (request : MCPRequest) (a : gmap string jvalue) (pp : string) :
  method request = "tools/call" →
  arguments_of request = Some a →
  a !! "projectPath" = Some (JStr pp) →
  argument (transformRequest request) "projectPath"
  = Some (JStr (match classifyPath pp with
                | unix => unixToWslPath pp
                | _ => pp
                end)).
Proof.
  intros Hm Ha Hpp. unfold argument.
  rewrite (arguments_of_transformRequest request a Ha), Hm, String.eqb_refl.
  destruct (classifyPath pp) eqn:Hc;
    try (rewrite rewritten_args_projectPath_other; [done|];
         intros pp'; rewrite Hpp; intros [= <-]; by rewrite Hc).
  by apply rewritten_args_lookup_projectPath.
Qed.

Lemma transformRequest_projectPath_witness :
  let args : gmap string jvalue := {[ "projectPath" := JStr "/tmp/scratch" ]} in
  extractProjectSubfolder "/tmp/scratch" = None
  ∧ argument (transformRequest (tool_call args)) "projectPath"
    = Some (JStr "//wsl.localhost/Ubuntu/tmp/scratch").
Proof.
  intros args. split; [reflexivity|].
  apply (transformRequest_projectPath (tool_call args) args "/tmp/scratch");
    reflexivity.
Defined.

(** ** The read loop and the parser over a whole stream *)

Section StreamFacts.
Import Str StrFacts.

Lemma stream_of_cons c cs : stream_of (c :: cs) = c +:+ stream_of cs.
Proof. reflexivity. Qed.

Lemma app_empty_r' s : s +:+ "" = s.
Proof. induction s as [|c s IH]; [done|]. by rewrite app_cons, IH. Qed.

(** The read loop from any point of the stream: [pre] is what has been
    consumed, [bs] the batches handed on, [buf] the buffer. *)
Lemma read_batches_from pre bs buf chunks :
  concat bs = complete_lines pre →
  buf = List.last (split nl pre) "" →
  let r := foldl (fun st value =>
                    let lines := split nl (st.2 +:+ value) in
                    (st.1 ++ [removelast lines], List.last lines ""))
                 (bs, buf) chunks in
  concat r.1 = complete_lines (pre +:+ stream_of chunks)
  ∧ r.2 = List.last (split nl (pre +:+ stream_of chunks)) "".
Proof.
  revert pre bs buf. induction chunks as [|c cs IH]; intros pre bs buf Hbs Hbuf.
  - cbn. by rewrite app_empty_r'.
  - cbn [foldl]. rewrite stream_of_cons, <- app_assoc'. cbn [fst snd].
    destruct (carry_over_buffer pre c) as [Hl Hb]. rewrite <- Hbuf in Hl, Hb.
    apply IH.
    + rewrite concat_app, Hbs. cbn [concat]. rewrite app_nil_r.
      symmetry. exact Hl.
    + symmetry. exact Hb.
Qed.

Context {S : Type} (emit : string → string → S → S).

Lemma read_loop_from bs buf (s0 s : S) chunks :
  s = foldl (fun s ls => processLines emit ls s) s0 bs →
  let r := foldl (fun st value =>
                    let lines := split nl (st.2 +:+ value) in
                    (st.1 ++ [removelast lines], List.last lines ""))
                 (bs, buf) chunks in
  foldl (fun st value => read_chunk emit st.1 value st.2) (buf, s) chunks
  = (r.2, foldl (fun s ls => processLines emit ls s) s0 r.1).
Proof.
  revert bs buf s. induction chunks as [|c cs IH]; intros bs buf s Hs.
  - cbn. by rewrite Hs.
  - cbn [foldl]. unfold read_chunk at 2. cbn [fst snd].
    apply IH. rewrite foldl_app. cbn [foldl]. by rewrite Hs.
Qed.

End StreamFacts.

Section EmissionFacts.
Import Str StrFacts.

Lemma replay_record_pair pairs tr : replay record_pair pairs tr = tr ++ pairs.
Proof.
  revert tr. induction pairs as [|[ev d] pairs IH]; intros tr.
  - by rewrite app_nil_r.
  - unfold replay in *. cbn [foldl fst snd]. rewrite IH.
    unfold record_pair. by rewrite <- app_assoc.
Qed.

Lemma processLines_record lines tr :
  processLines record_pair lines tr = tr ++ emitted_by_lines lines.
Proof. by rewrite processLines_replay, replay_record_pair. Qed.

Lemma foldl_batches_record bs tr :
  foldl (fun tr ls => processLines record_pair ls tr) tr bs
  = tr ++ concat (map emitted_by_lines bs).
Proof.
  revert tr. induction bs as [|ls bs IH]; intros tr.
  - by rewrite app_nil_r.
  - cbn [foldl map concat]. by rewrite IH, processLines_record, <- app_assoc.
Qed.

Lemma emitted_by_chunks_batches chunks :
  emitted_by_chunks chunks = concat (map emitted_by_lines (read_batches chunks).1).
Proof.
  unfold emitted_by_chunks, read_loop, read_batches.
  rewrite (read_loop_from record_pair [] "" [] [] chunks eq_refl).
  cbn [snd]. by rewrite foldl_batches_record.
Qed.

(** The trace so far only sits in front of what a batch adds. *)
Lemma foldl_line_step_trace lines sl tr :
  foldl (line_step record_pair) (sl, tr) lines
  = ((foldl (line_step record_pair) (sl, []) lines).1,
     tr ++ (foldl (line_step record_pair) (sl, []) lines).2).
Proof.
  pose proof (foldl_line_step_replay record_pair lines sl [] tr) as H.
  unfold replay in H at 1. cbn [foldl] in H.
  by rewrite H, replay_record_pair.
Qed.

(** The pending event is written before it is read: its value when a line
    comes in has no bearing on the pairs or on the pending data. *)
Lemma line_step_event_irrelevant d e e' tr line :
  let r := line_step record_pair (Slots d e, tr) line in
  let r' := line_step record_pair (Slots d e', tr) line in
  pendingData r.1 = pendingData r'.1 ∧ r.2 = r'.2.
Proof.
  unfold line_step. cbn [fst snd pendingData pendingEvent].
  destruct (startsWith "data: " line); [done|].
  destruct (startsWith "event: " line); [|done].
  by destruct (_ && _).
Qed.

Lemma foldl_event_irrelevant lines d e e' tr :
  let r := foldl (line_step record_pair) (Slots d e, tr) lines in
  let r' := foldl (line_step record_pair) (Slots d e', tr) lines in
  pendingData r.1 = pendingData r'.1 ∧ r.2 = r'.2.
Proof.
  revert d e e' tr. induction lines as [|l lines IH]; intros d e e' tr; [done|].
  cbn [foldl]. pose proof (line_step_event_irrelevant d e e' tr l) as [Hd Ht].
  cbv zeta in Hd, Ht.
  destruct (line_step record_pair (Slots d e, tr) l) as [[d1 e1] tr1].
  destruct (line_step record_pair (Slots d e', tr) l) as [[d2 e2] tr2].
  cbn in Hd, Ht. subst. apply IH.
Qed.

Lemma emitted_by_lines_app l1 l2 :
  pending_after l1 = "" →
  emitted_by_lines (l1 ++ l2) = emitted_by_lines l1 ++ emitted_by_lines l2.
Proof.
  unfold pending_after, emitted_by_lines, processLines. intros Hp.
  rewrite foldl_app.
  destruct (foldl (line_step record_pair) (no_slots, []) l1) as [[d1 e1] tr1].
  cbn in Hp. subst d1. cbn [snd].
  rewrite foldl_line_step_trace. cbn [snd]. f_equal.
  apply (foldl_event_irrelevant l2 "" e1 "" []).
Qed.

Lemma emitted_by_lines_concat bs :
  Forall (fun ls => pending_after ls = "") bs →
  emitted_by_lines (concat bs) = concat (map emitted_by_lines bs).
Proof.
  induction 1 as [|ls bs Hls _ IH]; [done|].
  cbn [concat map]. by rewrite emitted_by_lines_app, IH.
Qed.

(** What a batch emits has a name and a payload. *)
Lemma foldl_line_step_nonempty lines sl tr :
  Forall (fun p => p.1 ≠ "" ∧ p.2 ≠ "") tr →
  Forall (fun p => p.1 ≠ "" ∧ p.2 ≠ "")
         (foldl (line_step record_pair) (sl, tr) lines).2.
Proof.
  revert sl tr. induction lines as [|l lines IH]; intros sl tr Htr; [done|].
  cbn [foldl]. unfold line_step at 2. cbn [fst snd].
  destruct (startsWith "data: " l); [by apply IH|].
  destruct (startsWith "event: " l); [|by apply IH].
  destruct (is_empty (pendingData sl)) eqn:Hd; [by apply IH|].
  destruct (is_empty (trim (slice 7 l))) eqn:He; [by apply IH|].
  cbn [negb andb]. apply IH. unfold record_pair.
  apply Forall_app. split; [done|]. apply Forall_singleton.
  by split; apply is_empty_false.
Qed.

Lemma emitted_by_lines_nonempty lines :
  Forall (fun p => p.1 ≠ "" ∧ p.2 ≠ "") (emitted_by_lines lines).
Proof. by apply foldl_line_step_nonempty. Qed.

Lemma data_line_not_event line :
  startsWith "data: " line = true → startsWith "event: " line = false.
Proof. intros [r ->]%startsWith_spec. reflexivity. Qed.

Lemma payload_lines_cons l lines :
  payload_lines (l :: lines) = payload_lines [l] + payload_lines lines.
Proof.
  unfold payload_lines. cbn [List.filter].
  by destruct (_ && _).
Qed.

Lemma named_event_lines_cons l lines :
  named_event_lines (l :: lines) = named_event_lines [l] + named_event_lines lines.
Proof.
  unfold named_event_lines. cbn [List.filter].
  by destruct (_ && _).
Qed.

Lemma line_step_counts sl tr l :
  let r := line_step record_pair (sl, tr) l in
  length r.2 + pending_count r.1 ≤ length tr + pending_count sl + payload_lines [l]
  ∧ length r.2 ≤ length tr + named_event_lines [l].
Proof.
  cbv zeta. unfold payload_lines, named_event_lines, pending_count.
  cbn [List.filter].
  destruct (startsWith "data: " l) eqn:Hdl.
  - rewrite (line_step_data record_pair sl tr l Hdl), (data_line_not_event l Hdl).
    cbn [fst snd pendingData andb].
    destruct (is_empty (slice 6 l)); destruct (is_empty (pendingData sl));
      cbn [negb length]; lia.
  - cbn [andb]. destruct (startsWith "event: " l) eqn:Hel.
    + cbn [andb]. destruct (is_empty (trim (slice 7 l))) eqn:He.
      * rewrite line_step_event_hold by (done || right; by apply is_empty_true).
        cbn [fst snd pendingData negb length]. lia.
      * destruct (is_empty (pendingData sl)) eqn:Hd.
        -- rewrite line_step_event_hold by (done || left; by apply is_empty_true).
           cbn [fst snd pendingData negb length]. rewrite Hd. lia.
        -- rewrite line_step_event_emit by (done || by apply is_empty_false).
           cbn [fst snd pendingData negb length no_slots is_empty].
           unfold record_pair. rewrite length_app. cbn [length]. lia.
    + rewrite line_step_other by done. cbn [fst snd length]. lia.
Qed.

Lemma foldl_line_step_counts lines sl tr :
  let r := foldl (line_step record_pair) (sl, tr) lines in
  length r.2 + pending_count r.1 ≤ length tr + pending_count sl + payload_lines lines
  ∧ length r.2 ≤ length tr + named_event_lines lines.
Proof.
  cbv zeta. revert sl tr. induction lines as [|l lines IH]; intros sl tr.
  - cbn. unfold payload_lines, named_event_lines. cbn. lia.
  - cbn [foldl]. rewrite payload_lines_cons, named_event_lines_cons.
    pose proof (line_step_counts sl tr l) as [H1 H2]. cbv zeta in H1, H2.
    destruct (line_step record_pair (sl, tr) l) as [sl1 tr1].
    destruct (IH sl1 tr1) as [IH1 IH2]. cbn [fst snd] in H1, H2. lia.
Qed.

End EmissionFacts.

(** X9.  Over any sequence of chunks, the read loop hands [processLines]
    one batch per chunk; put end to end, the batches are exactly the
    complete lines of the whole stream, and the buffer left over is its
    unterminated tail: no part of a line is lost or handed on twice,
    wherever the chunks are cut. *)
Theorem read_loop_hands_on_complete_lines
    {S : Type} (emit : string → string → S → S) (chunks : list string) (s : S) :
  read_loop emit chunks s
  = ((read_batches chunks).2,
     foldl (fun s ls => processLines emit ls s) s (read_batches chunks).1)
  ∧ concat (read_batches chunks).1 = complete_lines (stream_of chunks)
  ∧ (read_batches chunks).2
    = List.last (Str.split Str.nl (stream_of chunks)) "".
Proof.
  split.
  - unfold read_loop, read_batches.
    by rewrite (read_loop_from emit [] "" s s chunks eq_refl).
  - apply (read_batches_from "" [] "" chunks); reflexivity.
Qed.

(** X10.  The pairs emitted over a sequence of chunks are those each batch
    emits on its own, one batch after the other: nothing pending is taken
    from one batch into the next. *)
Theorem emitted_batch_by_batch (chunks : list string) :
  emitted_by_chunks chunks
  = concat (map emitted_by_lines (read_batches chunks).1).
Proof. apply emitted_by_chunks_batches. Qed.

(** X11.  When no batch ends with data pending (no chunk boundary falls
    between the end of a [data: ] line with a payload and the end of the
    [event: ] line that takes it), the chunks emit what the whole stream
    emits when it comes as one batch. *)
Theorem chunks_emit_as_whole_stream (chunks : list string) :
  Forall (fun ls => pending_after ls = "") (read_batches chunks).1 →
  emitted_by_chunks chunks = emitted_by_lines (complete_lines (stream_of chunks)).
Proof.
  intros H. rewrite emitted_by_chunks_batches.
  assert (concat (read_batches chunks).1 = complete_lines (stream_of chunks)) as <-
    by apply (read_batches_from "" [] "" chunks eq_refl eq_refl).
  symmetry. by apply emitted_by_lines_concat.
Qed.

Lemma chunks_emit_as_whole_stream_witness :
  let chunks := ["data: /mess"; ln "age" +:+ ln "event: endpoint" +:+ "data";
                 ln ": {}" +:+ ln "event: message"] in
  emitted_by_chunks chunks = [("endpoint", "/message"); ("message", "{}")].
Proof.
  intros chunks.
  rewrite (chunks_emit_as_whole_stream chunks); [reflexivity|].
  vm_compute. repeat constructor.
Defined.

(** X12.  Every pair the parser emits has a non-empty event name and a
    non-empty payload, whatever the stream and its chunks. *)
Theorem emitted_pairs_are_nonempty (chunks : list string) :
  Forall (fun p => p.1 ≠ "" ∧ p.2 ≠ "") (emitted_by_chunks chunks).
Proof.
  rewrite emitted_by_chunks_batches. apply Forall_concat, Forall_map.
  apply Forall_forall. intros ls _. apply emitted_by_lines_nonempty.
Qed.

(** X13.  A batch never emits more pairs than it has [data: ] lines with a
    payload, nor more than it has [event: ] lines with a name: a payload
    goes out at most once and an event line emits at most one pair. *)
Theorem emitted_pairs_bounded (lines : list string) :
  length (emitted_by_lines lines) ≤ payload_lines lines
  ∧ length (emitted_by_lines lines) ≤ named_event_lines lines.
Proof.
  pose proof (foldl_line_step_counts lines no_slots []) as [H1 H2].
  cbv zeta in H1, H2. unfold emitted_by_lines, processLines.
  cbn [length pending_count no_slots pendingData Str.is_empty] in H1, H2.
  unfold pending_count in H1. cbn in H1, H2. lia.
Qed.

(** ** The correlator: timers, promises and the registry together *)

Section ExpiryFacts.
Variable JSON_parse : string → option MCPResponse.

(** Steps that leave the registry, the promises and the POSTs alone, and
    the expiry timers as they are. *)
Lemma expiry_ok_transfer b b' :
  promises b' = promises b →
  pendingRequests b' = pendingRequests b →
  posts b' = posts b →
  next_timer b ≤ next_timer b' →
  (∀ t i p ms, timers b' !! t = Some (Timer (RequestExpiry i p) ms)
               ↔ timers b !! t = Some (Timer (RequestExpiry i p) ms)) →
  (∀ t0 i p ms, reconnectTimer b' = Some t0 →
                timers b' !! t0 ≠ Some (Timer (RequestExpiry i p) ms)) →
  expiry_ok b → expiry_ok b'.
Proof.
  intros Hp Hw Hc Hn Ht Hr (L & M0 & M & M2 & N & T1 & R).
  unfold expiry_ok. rewrite Hp, Hw, Hc. split_and!.
  - intros i w Hiw. apply Ht. by apply L.
  - intros k c Hk. specialize (M0 k c Hk). lia.
  - intros k c i p ms Hk Htm%Ht. by apply (M k c i p ms).
  - intros k c t i ms Hk Htm%Ht. by apply (M2 k c t i ms).
  - intros t t' i i' p ms ms' H1%Ht H2%Ht. by apply (N t t' i i' p ms ms').
  - intros t i p ms Htm%Ht. by apply (T1 t i p ms).
  - done.
Qed.

Lemma scheduleReconnect_expiry_ok b :
  timers_ok b → expiry_ok b → expiry_ok (scheduleReconnect b).
Proof.
  intros (H1 & H2 & H3) Hok. pose proof Hok as (_ & _ & _ & _ & _ & _ & R).
  assert (∀ t i p ms,
            timers (scheduleReconnect b) !! t = Some (Timer (RequestExpiry i p) ms)
            ↔ timers b !! t = Some (Timer (RequestExpiry i p) ms)) as Ht.
  { intros t i p ms. unfold scheduleReconnect, set_reconnectTimer.
    destruct (reconnectTimer b) as [t0|] eqn:Hr; cbn.
    - rewrite lookup_insert_Some, lookup_delete_Some. split.
      + intros [[_ [=]]|[_ [_ ?]]]. done.
      + intros Htm. right. split_and!; [|by intros ->; eapply R|done].
        intros <-. apply H1 in Htm. lia.
    - rewrite lookup_insert_Some. split.
      + intros [[_ [=]]|[_ ?]]. done.
      + intros Htm. right. split; [|done]. intros <-. apply H1 in Htm. lia. }
  eapply expiry_ok_transfer; [| | | |exact Ht| |exact Hok].
  - by destruct (scheduleReconnect_frame b) as (? & _).
  - by destruct (scheduleReconnect_frame b) as (_ & ? & _).
  - by destruct (scheduleReconnect_frame b) as (_ & _ & _ & ? & _).
  - unfold scheduleReconnect, set_reconnectTimer.
    destruct (reconnectTimer b); cbn; lia.
  - intros t0 i p ms Hr0.
    assert (t0 = next_timer b) as ->.
    { revert Hr0. unfold scheduleReconnect, set_reconnectTimer.
      destruct (reconnectTimer b); cbn; congruence. }
    rewrite Ht. intros Htm. apply H1 in Htm. lia.
Qed.

(** The way a request ends, with the timer it clears. *)
Lemma finish_clear_expiry_ok i p o t b :
  expiry_ok b →
  (∀ i' w', pendingRequests b !! i' = Some w' → w_timeout w' = t → i' = i) →
  (∀ t' i' ms, timers b !! t' = Some (Timer (RequestExpiry i' p) ms) → t' = t) →
  expiry_ok (finish i p o (clearTimeout t b)).
Proof.
  intros (L & M0 & M & M2 & N & T1 & R) Ha Hb.
  assert (∀ t' tm, delete t (timers b) !! t' = Some tm →
                   t' ≠ t ∧ timers b !! t' = Some tm) as Hdel
      by (intros t' tm [? ?]%lookup_delete_Some; split; [congruence|done]).
  assert (expiry_ok (set_pending (delete i (pendingRequests b)) (clearTimeout t b))
          ∧ ∀ t' i' ms, delete t (timers b) !! t' = Some (Timer (RequestExpiry i' p) ms)
                        → False) as [Hok Hnop].
  { split.
    - unfold expiry_ok, set_pending, clearTimeout. cbn. split_and!.
      + intros i' w' [Hne Hw']%lookup_delete_Some.
        rewrite lookup_delete_ne; [by apply L|].
        intros Heq. destruct Hne. symmetry. by apply (Ha i' w').
      + done.
      + intros k c i' p' ms Hk [_ Htm]%Hdel. by apply (M k c i' p' ms).
      + intros k c t' i' ms Hk [_ Htm]%Hdel. by apply (M2 k c t' i' ms).
      + intros t1 t2 i1 i2 p' ms1 ms2 [_ Ht1]%Hdel [_ Ht2]%Hdel.
        by apply (N t1 t2 i1 i2 p' ms1 ms2).
      + intros t' i' p' ms [_ Htm]%Hdel. by apply (T1 t' i' p' ms).
      + intros t0 i' p' ms Hr [_ Htm]%Hdel. by apply (R t0 i' p' ms).
    - intros t' i' ms [Hne Htm]%Hdel. destruct Hne. by apply (Hb t' i' ms). }
  unfold finish, settle.
  change (pendingRequests (clearTimeout t b)) with (pendingRequests b).
  destruct (promises _ !! p) eqn:Hp; [exact Hok|].
  destruct Hok as (L' & M0' & M' & M2' & N' & T1' & R').
  unfold expiry_ok. cbn in *. split_and!; try done.
  intros t' i' p' ms Htm. pose proof (T1' t' i' p' ms Htm).
  rewrite lookup_insert_ne; [done|]. intros <-. by apply (Hnop t' i' ms).
Qed.

Lemma handleResponse_expiry_ok r b :
  expiry_ok b → expiry_ok (handleResponse r b).
Proof.
  intros Hok.
  destruct (r_id r) as [i|] eqn:Hi; [|unfold handleResponse; by rewrite Hi].
  destruct (pendingRequests b !! i) as [w|] eqn:Hw;
    [|unfold handleResponse; by rewrite Hi, Hw].
  rewrite (handleResponse_finish r b i w Hi Hw).
  pose proof Hok as (L & _ & _ & _ & N & _).
  apply finish_clear_expiry_ok; [done| |].
  - intros i' w' Hw' Heq. pose proof (L i' w' Hw') as H1.
    rewrite Heq, (L i w Hw) in H1. congruence.
  - intros t' i' ms Htm. by apply (N t' (w_timeout w) i' i (w_promise w) ms 30000%Z), L.
Qed.

Lemma fire_expiry_ok t b : expiry_ok b → expiry_ok (fire t b).
Proof.
  intros Hok. unfold fire. destruct (timers b !! t) as [[cb ms]|] eqn:Ht; [|done].
  destruct cb as [|i p]; cbn [callback_of].
  - pose proof Hok as (_ & _ & _ & _ & _ & _ & R).
    eapply expiry_ok_transfer; [..|exact Hok].
    + unfold connect_begin. by destruct (isConnecting _).
    + unfold connect_begin. by destruct (isConnecting _).
    + unfold connect_begin. by destruct (isConnecting _).
    + unfold connect_begin. by destruct (isConnecting _).
    + intros t' i p ms'.
      assert (timers (connect_begin (clearTimeout t b)).2 = delete t (timers b)) as ->
        by (unfold connect_begin; by destruct (isConnecting _)).
      rewrite lookup_delete_Some. split; [by intros [_ ?]|].
      intros Htm. split; [|done]. intros <-. congruence.
    + intros t0 i p ms' Hr.
      assert (reconnectTimer b = Some t0) as Hr'
        by (revert Hr; unfold connect_begin; by destruct (isConnecting _)).
      assert (timers (connect_begin (clearTimeout t b)).2 = delete t (timers b)) as ->
        by (unfold connect_begin; by destruct (isConnecting _)).
      intros [_ Htm]%lookup_delete_Some. by apply (R t0 i p ms').
  - change (expiry_ok (finish i p (Rejected RequestTimeout) (clearTimeout t b))).
    pose proof Hok as (L & _ & _ & _ & N & _).
    apply finish_clear_expiry_ok; [done| |].
    + intros i' w' Hw' Heq. pose proof (L i' w' Hw') as H1.
      rewrite Heq, Ht in H1. congruence.
    + intros t' i' ms' Htm. by apply (N t' t i' i p ms' ms).
Qed.

Lemma post_failed_expiry_ok k c error b :
  posts b !! k = Some c → expiry_ok b → expiry_ok (post_failed c error b).
Proof.
  intros Hk Hok.
  change (expiry_ok (finish (post_id c) (post_promise c)
                            (Rejected (TransportError error))
                            (clearTimeout (post_timeout c) b))).
  pose proof Hok as (L & _ & M & M2 & _).
  apply finish_clear_expiry_ok; [done| |].
  - intros i' w' Hw' Heq. pose proof (L i' w' Hw') as H1. rewrite Heq in H1.
    by destruct (M k c _ _ _ Hk H1).
  - intros t' i' ms Htm. by apply (M2 k c t' i' ms).
Qed.

Lemma sendRequest_expiry_ok rand request b :
  timers_ok b → promises_ok b → expiry_ok b →
  expiry_ok (sendRequest rand request b).2.
Proof.
  rewrite sendRequest_state. destruct (endpoint_known _); [|done].
  intros (Ht1 & Ht2 & _) (P1 & P2 & P3 & P4) (L & M0 & M & M2 & N & T1 & R).
  unfold sendRequest_submit.
  set (i := default (IdStr rand) (id (transformRequest request))).
  unfold expiry_ok, start_post, set_pending. cbn.
  assert (timers b !! next_timer b = None) as Hfresh_t.
  { destruct (timers b !! next_timer b) eqn:E; [|done]. apply Ht1 in E. lia. }
  assert (promises b !! next_promise b = None) as Hfresh_p.
  { destruct (promises b !! next_promise b) eqn:E; [|done]. apply P1 in E. lia. }
  assert (∀ t j p ms, timers b !! t = Some (Timer (RequestExpiry j p) ms) →
                      t ≠ next_timer b ∧ p ≠ next_promise b) as Hold.
  { intros t j p ms Htm. split.
    - intros ->. congruence.
    - destruct (P3 t j p ms Htm) as [Hlt _]. lia. }
  split_and!.
  - intros i' w [[<- <-]|[_ Hw]]%lookup_insert_Some; cbn.
    + by rewrite lookup_insert_eq.
    + pose proof (L i' w Hw) as Htm. destruct (Hold _ _ _ _ Htm) as [Hne _].
      by rewrite lookup_insert_ne.
  - intros k c [Hk|[_ Hk]]%lookup_app_Some.
    + specialize (M0 k c Hk). lia.
    + apply list_lookup_singleton_Some in Hk as [_ <-]. cbn. lia.
  - intros k c j p ms [Hk|[_ Hk]]%lookup_app_Some.
    + specialize (M0 k c Hk). rewrite lookup_insert_ne by lia.
      by apply (M k c j p ms).
    + apply list_lookup_singleton_Some in Hk as [_ <-]. cbn.
      rewrite lookup_insert_eq. intros Heq. by simplify_eq.
  - intros k c t j ms [Hk|[_ Hk]]%lookup_app_Some.
    + intros [[<- Heq]|[_ Htm]]%lookup_insert_Some.
      * destruct (P4 k c Hk) as [Hlt _]. simplify_eq. lia.
      * by apply (M2 k c t j ms).
    + apply list_lookup_singleton_Some in Hk as [_ <-]. cbn.
      intros [[<- _]|[_ Htm]]%lookup_insert_Some; [done|].
      by destruct (Hold _ _ _ _ Htm).
  - intros t t' j j' p ms ms'
           [[<- Heq]|[_ Htm]]%lookup_insert_Some
           [[<- Heq']|[_ Htm']]%lookup_insert_Some.
    + done.
    + destruct (Hold _ _ _ _ Htm') as [_ Hne]. simplify_eq.
    + destruct (Hold _ _ _ _ Htm) as [_ Hne]. simplify_eq.
    + by apply (N t t' j j' p ms ms').
  - intros t j p ms [[<- Heq]|[_ Htm]]%lookup_insert_Some.
    + by simplify_eq.
    + by apply (T1 t j p ms).
  - intros t0 j p ms Hr. specialize (Ht2 t0 Hr).
    rewrite lookup_insert_ne by lia. by apply R.
Qed.

Lemma dispatch_bridge_ok ev data b :
  bridge_ok b → bridge_ok (dispatch JSON_parse ev data b).
Proof.
  intros (Ht & Hp & He). split_and!.
  - eapply timers_shrink_ok; [apply dispatch_shrink|done].
  - by apply dispatch_ok.
  - unfold dispatch. destruct (String.eqb ev "endpoint"); [done|].
    destruct (String.eqb ev "message"); [|done].
    destruct (JSON_parse data); [by apply handleResponse_expiry_ok|done].
Qed.

Lemma replay_dispatch_bridge_ok pairs b :
  bridge_ok b → bridge_ok (replay (dispatch JSON_parse) pairs b).
Proof.
  revert b. induction pairs as [|[ev d] pairs IH]; intros b Hok; [done|].
  apply IH. by apply dispatch_bridge_ok.
Qed.

Lemma step_bridge_ok b e : bridge_ok b → bridge_ok (step JSON_parse b e).
Proof.
  intros Hok. pose proof Hok as (Ht & Hp & He).
  split_and!; [by apply step_ok | by apply step_promises_ok |].
  destruct e; cbn [step].
  - done.
  - unfold connect_error. by apply scheduleReconnect_expiry_ok.
  - by apply scheduleReconnect_expiry_ok.
  - unfold read_chunk. cbn [snd]. rewrite processLines_replay.
    by apply replay_dispatch_bridge_ok.
  - unfold stream_ended. by apply scheduleReconnect_expiry_ok.
  - by apply fire_expiry_ok.
  - by apply sendRequest_expiry_ok.
  - destruct (posts b !! k) as [c|] eqn:Hk; [|done].
    by apply (post_failed_expiry_ok k).
Qed.

Lemma reachable_bridge_ok b : reachable JSON_parse b → bridge_ok b.
Proof.
  intros Hr. pose proof (reachable_ok JSON_parse b Hr) as Ht.
  pose proof (reachable_promises_ok JSON_parse b Hr) as Hp.
  destruct Hr as [es ->]. split_and!; [done|done|]. clear Ht Hp.
  assert (bridge_ok new_bridge) as H0.
  { split_and!; [apply new_bridge_ok|apply (reachable_promises_ok JSON_parse); by exists []|].
    unfold expiry_ok. cbn. split_and!; try done;
      intros; by rewrite ?lookup_empty in *. }
  revert H0. unfold run. generalize new_bridge.
  induction es as [|e es IH]; intros b Hb; [by destruct Hb as (_ & _ & ?)|].
  cbn [foldl]. apply IH. by apply step_bridge_ok.
Qed.

End ExpiryFacts.

Section OutcomeFacts.
Variable JSON_parse : string → option MCPResponse.

(** The endpoint field is only ever set by an [endpoint] event. *)
Lemma handleResponse_endpoint r b :
  jbMessageEndpoint (handleResponse r b) = jbMessageEndpoint b.
Proof.
  unfold handleResponse. destruct (r_id r); [|done].
  destruct (pendingRequests b !! _) as [w|]; [|done].
  unfold waiter_resolve, settle. cbn. by destruct (promises b !! w_promise w).
Qed.

Lemma replay_dispatch_endpoint pairs b :
  Forall (fun p => p.1 ≠ "" ∧ p.2 ≠ "") pairs →
  jbMessageEndpoint b ≠ Some "" →
  jbMessageEndpoint (replay (dispatch JSON_parse) pairs b) ≠ Some "".
Proof.
  intros Hp. revert b. induction Hp as [|[ev d] pairs [_ Hd] _ IH]; intros b Hb; [done|].
  apply IH. unfold dispatch. cbn [fst snd] in *.
  destruct (String.eqb ev "endpoint"); [cbn; congruence|].
  destruct (String.eqb ev "message"); [|done].
  destruct (JSON_parse d); [by rewrite handleResponse_endpoint|done].
Qed.

Lemma scheduleReconnect_endpoint b :
  jbMessageEndpoint (scheduleReconnect b) = jbMessageEndpoint b.
Proof.
  unfold scheduleReconnect, set_reconnectTimer. by destruct (reconnectTimer b).
Qed.

Lemma step_endpoint b e :
  jbMessageEndpoint b ≠ Some "" → jbMessageEndpoint (step JSON_parse b e) ≠ Some "".
Proof.
  intros Hb. destruct e; cbn [step].
  - done.
  - unfold connect_error. by rewrite scheduleReconnect_endpoint.
  - unfold connect_rejected. by rewrite scheduleReconnect_endpoint.
  - unfold read_chunk. cbn [snd]. rewrite processLines_replay.
    apply replay_dispatch_endpoint; [apply emitted_by_lines_nonempty|done].
  - unfold stream_ended. by rewrite scheduleReconnect_endpoint.
  - unfold fire. destruct (timers b !! t) as [[cb ms]|]; [|done].
    destruct cb; cbn [callback_of].
    + unfold connect_begin. by destruct (isConnecting _).
    + unfold settle. cbn. by destruct (promises b !! promise).
  - rewrite sendRequest_state. by destruct (endpoint_known _).
  - destruct (posts b !! k); [|done]. unfold post_failed, settle. cbn.
    by destruct (promises b !! _).
Qed.

End OutcomeFacts.

(** X14.  In every state the bridge can reach, a response whose identifier
    has a registered waiter resolves that waiter's caller with this very
    response, removes the waiter and cancels its timer; the cancelled timer
    can then no longer fail the caller. *)
Theorem matching_response_resolves_waiter
    (JSON_parse : string → option MCPResponse)
    (b : bridge) (i : req_id) (w : waiter) (response : MCPResponse) :
  reachable JSON_parse b →
  pendingRequests b !! i = Some w →
  r_id response = Some i →
  let b' := handleResponse response b in
  promises b' !! w_promise w = Some (Resolved response)
  ∧ pendingRequests b' !! i = None
  ∧ timers b' !! w_timeout w = None
  ∧ fire (w_timeout w) b' = b'.
Proof.
  intros (_ & P2 & _)%reachable_promises_ok Hw Hi. cbv zeta.
  destruct (P2 i w Hw) as [Hp _].
  rewrite (handleResponse_finish response b i w Hi Hw).
  unfold finish, settle, fire. cbn. rewrite Hp. cbn.
  by rewrite !lookup_delete_eq, lookup_insert_eq.
Qed.

Lemma matching_response_resolves_waiter_witness :
  let b := run no_parse
               [ConnectOpened;
                StreamChunk "" (ln "data: /message" +:+ ln "event: endpoint");
                Submitted "r1" (some_request 7)] new_bridge in
  let b' := handleResponse (some_response 7) b in
  promises b !! 0 = None
  ∧ promises b' !! 0 = Some (Resolved (some_response 7))
  ∧ pendingRequests b' !! IdNum 7 = None.
Proof.
  intros b b'.
  assert (reachable no_parse b) as Hb by (by eexists).
  destruct (matching_response_resolves_waiter
              no_parse b (IdNum 7) (Waiter 0 0) (some_response 7)
              Hb eq_refl eq_refl) as (H1 & H2 & _).
  split_and!; [reflexivity | exact H1 | exact H2].
Defined.

(** X15.  In every state the bridge can reach, when the 30-second timer of
    a registered waiter fires, the caller is failed with the request
    timeout, the waiter is removed, and a response that comes for the
    identifier afterwards is dropped. *)
Theorem expiry_fails_caller_and_unregisters
    (JSON_parse : string → option MCPResponse)
    (b : bridge) (i : req_id) (w : waiter) :
  reachable JSON_parse b →
  pendingRequests b !! i = Some w →
  let b' := fire (w_timeout w) b in
  promises b' !! w_promise w = Some (Rejected RequestTimeout)
  ∧ pendingRequests b' !! i = None
  ∧ timers b' !! w_timeout w = None
  ∧ ∀ response, r_id response = Some i → handleResponse response b' = b'.
Proof.
  intros Hr Hw. cbv zeta.
  destruct (reachable_bridge_ok JSON_parse b Hr) as (_ & (_ & P2 & _) & (L & _)).
  destruct (P2 i w Hw) as [Hp _]. pose proof (L i w Hw) as Ht.
  unfold fire. rewrite Ht. cbn [callback_of].
  unfold settle, set_pending, clearTimeout. cbn. rewrite Hp. cbn.
  rewrite !lookup_delete_eq, lookup_insert_eq. split_and!; try done.
  intros response Hi. unfold handleResponse. rewrite Hi. cbn.
  by rewrite lookup_delete_eq.
Qed.

Lemma expiry_fails_caller_and_unregisters_witness :
  let b := run no_parse
               [ConnectOpened;
                StreamChunk "" (ln "data: /message" +:+ ln "event: endpoint");
                Submitted "r1" (some_request 7)] new_bridge in
  let b' := step no_parse b (TimerFired 0) in
  promises b' !! 0 = Some (Rejected RequestTimeout)
  ∧ pendingRequests b' !! IdNum 7 = None
  ∧ handleResponse (some_response 7) b' = b'.
Proof.
  intros b b'.
  assert (reachable no_parse b) as Hb by (by eexists).
  destruct (expiry_fails_caller_and_unregisters
              no_parse b (IdNum 7) (Waiter 0 0) Hb eq_refl) as (H1 & H2 & _ & H4).
  split_and!; [exact H1 | exact H2 | by apply H4].
Defined.

(** X16.  In every state the bridge can reach, a registered waiter has its
    own 30-second timer live and its caller still waiting: no waiter stays
    in the registry without a timer that will remove it. *)
Theorem registered_waiter_has_live_timer
    (JSON_parse : string → option MCPResponse)
    (b : bridge) (i : req_id) (w : waiter) :
  reachable JSON_parse b →
  pendingRequests b !! i = Some w →
  timers b !! w_timeout w = Some (Timer (RequestExpiry i (w_promise w)) 30000)
  ∧ promises b !! w_promise w = None.
Proof.
  intros Hr Hw.
  destruct (reachable_bridge_ok JSON_parse b Hr) as (_ & (_ & P2 & _) & (L & _)).
  split; [by apply L | by destruct (P2 i w Hw)].
Qed.

Lemma registered_waiter_has_live_timer_witness :
  let b := run no_parse
               [ConnectOpened; StreamChunk "" (frame "/message" "endpoint");
                Submitted "r1" (some_request 7); Submitted "r2" (some_request 7);
                TimerFired 0; Submitted "r3" (some_request 8)] new_bridge in
  pendingRequests b !! IdNum 8 = Some (Waiter 2 2)
  ∧ timers b !! 2 = Some (Timer (RequestExpiry (IdNum 8) 2) 30000)
  ∧ promises b !! 2 = None.
Proof.
  intros b.
  assert (reachable no_parse b) as Hb by (by eexists).
  split; [reflexivity|].
  apply (registered_waiter_has_live_timer no_parse b (IdNum 8) (Waiter 2 2) Hb).
  reflexivity.
Defined.

(** X18.  Submitting and then receiving the response.  A call of
    [sendRequest] that gets as far as its POST found an endpoint, and the
    POST goes to that endpoint; the body that is POSTed carries the
    identifier the waiter is registered under; once a response with that
    identifier has come in, the caller is resolved with it, and the
    registry and the timer table are as before the submission (the registry
    without that identifier). *)
Theorem submit_then_response_round_trip
    (JSON_parse : string → option MCPResponse)
    (b b1 : bridge) (rand : string) (request : MCPRequest)
    (c : post) (response : MCPResponse) :
  reachable JSON_parse b →
  sendRequest rand request b = (Posted c, b1) →
  r_id response = Some (post_id c) →
  let b2 := handleResponse response b1 in
  endpoint_known (jbMessageEndpoint b) = true
  ∧ post_endpoint c = jbMessageEndpoint b
  ∧ id (post_body c) = Some (post_id c)
  ∧ post_id c = default (IdStr rand) (id request)
  ∧ promises b1 !! post_promise c = None
  ∧ promises b2 !! post_promise c = Some (Resolved response)
  ∧ pendingRequests b2 = delete (post_id c) (pendingRequests b)
  ∧ timers b2 = timers b.
Proof.
  intros Hr Hs Hi. cbv zeta.
  destruct (reachable_bridge_ok JSON_parse b Hr) as ((T1 & _) & (P1 & _) & _).
  assert (timers b !! next_timer b = None) as Hft.
  { destruct (timers b !! next_timer b) eqn:E; [|done]. apply T1 in E. lia. }
  assert (promises b !! next_promise b = None) as Hfp.
  { destruct (promises b !! next_promise b) eqn:E; [|done]. apply P1 in E. lia. }
  unfold sendRequest in Hs. destruct (endpoint_known _) eqn:He; [|done].
  unfold sendRequest_submit in Hs. rewrite transformRequest_id in Hs.
  cbn in Hs. injection Hs as <- <-. cbn in Hi |- *.
  unfold handleResponse. rewrite Hi. cbn. rewrite lookup_insert_eq.
  unfold waiter_resolve, settle, set_pending, clearTimeout. cbn. rewrite Hfp. cbn.
  rewrite lookup_insert_eq, !delete_insert_eq, (delete_id _ _ Hft).
  done.
Qed.

Lemma submit_then_response_round_trip_witness :
  let b := run no_parse
               [ConnectOpened; StreamChunk "" (frame "/message" "endpoint")]
               new_bridge in
  let b1 := (sendRequest "r1" (some_request 7) b).2 in
  let b2 := handleResponse (some_response 7) b1 in
  jbMessageEndpoint b = Some "/message"
  ∧ promises b2 !! 0 = Some (Resolved (some_response 7))
  ∧ pendingRequests b2 = delete (IdNum 7) (pendingRequests b)
  ∧ timers b2 = timers b.
Proof.
  intros b b1 b2.
  assert (reachable no_parse b) as Hb by (by eexists).
  assert (sendRequest "r1" (some_request 7) b
          = (Posted (Post (IdNum 7) 0 0 (Some "/message")
                          {| jsonrpc := "2.0"; id := Some (IdNum 7);
                             method := "tools/list"; params := None |}), b1)) as E
      by reflexivity.
  destruct (submit_then_response_round_trip
              no_parse b b1 "r1" (some_request 7) _ (some_response 7)
              Hb E eq_refl) as (_ & _ & _ & _ & _ & H1 & H2 & H3).
  split_and!; [reflexivity | exact H1 | exact H2 | exact H3].
Defined.

(** X19.  In every state the bridge can reach, the endpoint is either
    unknown or a non-empty string: the parser never hands on an empty
    payload, so the truthiness tests on [jbMessageEndpoint] are tests for
    [null]. *)
Theorem endpoint_is_never_empty
    (JSON_parse : string → option MCPResponse) (b : bridge) :
  reachable JSON_parse b → jbMessageEndpoint b ≠ Some "".
Proof.
  intros [es ->]. unfold run.
  assert (jbMessageEndpoint new_bridge ≠ Some "") as H0 by done.
  revert H0. generalize new_bridge.
  induction es as [|e es IH]; intros b Hb; [done|].
  cbn [foldl]. apply IH. by apply step_endpoint.
Qed.

Lemma endpoint_is_never_empty_witness :
  let b := run no_parse
               [ConnectOpened; StreamChunk "" (ln "data: " +:+ ln "event: endpoint")]
               new_bridge in
  jbMessageEndpoint b = None ∧ jbMessageEndpoint b ≠ Some "".
Proof.
  intros b. split; [reflexivity|].
  apply (endpoint_is_never_empty no_parse b). by eexists.
Defined.

(** ** Waiting for the endpoint *)

Section WaitFacts.
Variables (timeoutMs start : Z).

Lemma wait_settled_stays st ticks :
  st ≠ wait_pending → foldl (wait_step timeoutMs start) st ticks = st.
Proof.
  intros Hst. induction ticks as [|t ticks IH]; [done|].
  cbn [foldl]. by destruct st.
Qed.

Lemma wait_in_time_not_rejected pre :
  Forall (fun t => (t.2 - start <= timeoutMs)%Z) pre →
  foldl (wait_step timeoutMs start) wait_pending pre ≠ wait_rejected.
Proof.
  induction 1 as [|t pre Ht _ IH]; [done|].
  cbn [foldl wait_step]. unfold waitForConnection_check.
  destruct (endpoint_known t.1); [by rewrite wait_settled_stays|].
  destruct (Z.gtb_spec (t.2 - start) timeoutMs); [lia|done].
Qed.

Lemma wait_rejected_inv ticks :
  foldl (wait_step timeoutMs start) wait_pending ticks = wait_rejected →
  ∃ pre tick post,
    ticks = pre ++ tick :: post
    ∧ Forall (fun t => endpoint_known t.1 = false ∧ (t.2 - start <= timeoutMs)%Z) pre
    ∧ endpoint_known tick.1 = false
    ∧ (tick.2 - start > timeoutMs)%Z.
Proof.
  induction ticks as [|t ticks IH]; [done|].
  cbn [foldl wait_step]. unfold waitForConnection_check.
  destruct (endpoint_known t.1) eqn:Hk; [by rewrite wait_settled_stays|].
  destruct (Z.gtb_spec (t.2 - start) timeoutMs) as [Hgt|Hle].
  - intros _. exists [], t, ticks. split_and!; [done|constructor|done|lia].
  - intros (pre & tick & post & -> & Hpre & Hu & Hl)%IH.
    exists (t :: pre), tick, post. split_and!; [done| |done|done].
    constructor; [split; [done|lia]|done].
Qed.

Lemma wait_resolved_inv ticks :
  foldl (wait_step timeoutMs start) wait_pending ticks = wait_resolved →
  ∃ tick, tick ∈ ticks ∧ endpoint_known tick.1 = true.
Proof.
  induction ticks as [|t ticks IH]; [done|].
  cbn [foldl wait_step]. unfold waitForConnection_check.
  destruct (endpoint_known t.1) eqn:Hk.
  - intros _. exists t. split; [apply elem_of_cons; by left|done].
  - destruct (Z.gtb_spec (t.2 - start) timeoutMs).
    + by rewrite wait_settled_stays.
    + intros (tick & Hin & Hk')%IH. exists tick.
      split; [apply elem_of_cons; by right|done].
Qed.

Lemma waitForConnection_unfold endpoint ticks :
  waitForConnection timeoutMs endpoint start ticks
  = if endpoint_known endpoint then wait_resolved
    else foldl (wait_step timeoutMs start) wait_pending ticks.
Proof. reflexivity. Qed.

End WaitFacts.

(** X20.  [waitForConnection] resolves as soon as a run of its check finds
    an endpoint, provided no earlier run came after the deadline; the run
    that finds the endpoint may itself come after the deadline, since the
    endpoint is looked at first. *)
Theorem waitForConnection_resolves_when_endpoint_arrives
    (timeoutMs start : Z) (endpoint : option string)
    (pre post : list (option string * Z)) (tick : option string * Z) :
  Forall (fun t => (t.2 - start <= timeoutMs)%Z) pre →
  endpoint_known tick.1 = true →
  waitForConnection timeoutMs endpoint start (pre ++ tick :: post) = wait_resolved.
Proof.
  intros Hpre Hk. rewrite waitForConnection_unfold.
  destruct (endpoint_known endpoint); [done|].
  rewrite foldl_app. cbn [foldl].
  pose proof (wait_in_time_not_rejected timeoutMs start pre Hpre) as Hnr.
  destruct (foldl _ wait_pending pre) eqn:E.
  - cbn [wait_step]. unfold waitForConnection_check. rewrite Hk.
    by apply wait_settled_stays.
  - by apply wait_settled_stays.
  - done.
Qed.

Lemma waitForConnection_resolves_when_endpoint_arrives_witness :
  waitForConnection 20000 None 1000
    ([(None, 1100); (None, 21000)]%Z ++ (Some "/message", 21100%Z) :: [])
  = wait_resolved.
Proof.
  apply waitForConnection_resolves_when_endpoint_arrives; [|reflexivity].
  repeat constructor; cbn; lia.
Defined.

(** X21.  [waitForConnection] resolves only if an endpoint is known, when
    it is called or at a run of its check; it rejects only if no endpoint
    was known when it was called and some run of its check, before which
    every run found no endpoint and came in time, finds no endpoint more
    than [timeoutMs] after the start. *)
Theorem waitForConnection_outcomes
    (timeoutMs start : Z) (endpoint : option string)
    (ticks : list (option string * Z)) :
  (waitForConnection timeoutMs endpoint start ticks = wait_resolved →
   endpoint_known endpoint = true
   ∨ ∃ tick, tick ∈ ticks ∧ endpoint_known tick.1 = true)
  ∧ (waitForConnection timeoutMs endpoint start ticks = wait_rejected →
     endpoint_known endpoint = false
     ∧ ∃ pre tick post,
         ticks = pre ++ tick :: post
         ∧ Forall (fun t => endpoint_known t.1 = false
                            ∧ (t.2 - start <= timeoutMs)%Z) pre
         ∧ endpoint_known tick.1 = false
         ∧ (tick.2 - start > timeoutMs)%Z).
Proof.
  rewrite waitForConnection_unfold.
  destruct (endpoint_known endpoint); split; intros H; try done.
  - by left.
  - right. by apply (wait_resolved_inv timeoutMs start).
  - split; [done|]. by apply (wait_rejected_inv timeoutMs start).
Qed.

Lemma waitForConnection_outcomes_witness :
  waitForConnection 20000 None 1000 [(None, 1100); (None, 21001)]%Z = wait_rejected
  ∧ ∃ pre tick post,
      [(None, 1100); (None, 21001)]%Z = pre ++ tick :: post
      ∧ endpoint_known tick.1 = false ∧ (tick.2 - 1000 > 20000)%Z.
Proof.
  split; [reflexivity|].
  destruct (proj2 (waitForConnection_outcomes
                     20000 1000 None [(None, 1100); (None, 21001)]%Z) eq_refl)
    as (_ & pre & tick & post & E & _ & Hk & Hl).
  by exists pre, tick, post.
Defined.

(** ** A frame through the read loop *)

Section FrameFacts.
Import Str StrFacts.

Lemma split_line sep s r :
  free_of sep s = true → split sep (s +:+ String sep r) = s :: split sep r.
Proof.
  induction s as [|c s IH]; intros Hf.
  - change ("" +:+ String sep r) with (String sep r).
    by rewrite split_cons, Ascii.eqb_refl.
  - simpl in Hf. apply andb_true_iff in Hf as [Hc Hf].
    apply negb_true_iff in Hc.
    by rewrite app_cons, split_cons, Hc, IH.
Qed.

Lemma frame_lines payload name :
  free_of nl payload = true → free_of nl name = true →
  split nl (frame payload name) = ["data: " +:+ payload; "event: " +:+ name; ""].
Proof.
  intros Hp Hn. unfold frame, ln. rewrite app_assoc'.
  change (String nl "" +:+ ("event: " +:+ name) +:+ String nl "")
    with (String nl (("event: " +:+ name) +:+ String nl "")).
  rewrite split_line by (by rewrite free_of_app, Hp).
  rewrite split_line by (by rewrite free_of_app, Hn).
  done.
Qed.

End FrameFacts.

(** X22.  A frame that arrives whole in one chunk, on an empty buffer, is
    handed on as exactly one pair, the trimmed event name with the payload
    as it stands, and leaves the buffer empty.  For the bridge: an
    [endpoint] frame stores its payload as the endpoint. *)
Theorem frame_in_one_chunk
    {S : Type} (emit : string → string → S → S) (payload name : string) (s : S) :
  payload ≠ "" → Str.free_of Str.nl payload = true →
  Str.trim name ≠ "" → Str.free_of Str.nl name = true →
  read_chunk emit "" (frame payload name) s = ("", emit (Str.trim name) payload s).
Proof.
  intros Hp Hpf Hn Hnf. unfold read_chunk.
  change ("" +:+ frame payload name) with (frame payload name).
  rewrite (frame_lines payload name Hpf Hnf).
  cbn [List.last removelast]. f_equal.
  unfold processLines. cbn [foldl].
  rewrite line_step_data by apply StrFacts.startsWith_app.
  rewrite line_step_event_emit; [done|apply StrFacts.startsWith_app|done|done].
Qed.

Lemma frame_in_one_chunk_witness :
  jbMessageEndpoint
    (read_chunk (dispatch no_parse) "" (frame "/message?sessionId=1" "endpoint")
                new_bridge).2
  = Some "/message?sessionId=1".
Proof.
  rewrite (frame_in_one_chunk (dispatch no_parse) "/message?sessionId=1" "endpoint");
    [reflexivity | discriminate | reflexivity | discriminate | reflexivity].
Defined.

(** X23.  In every state the bridge can reach, when the live reconnection
    timer fires, a connection attempt is under way afterwards and no
    reconnection timer is left; the endpoint, the registry and the callers
    are not touched. *)
Theorem reconnect_timer_starts_connection
    (JSON_parse : string → option MCPResponse) (b : bridge) (t : nat) :
  reachable JSON_parse b →
  live_reconnect b t →
  let b' := fire t b in
  isConnecting b' = true
  ∧ (∀ t', ¬ live_reconnect b' t')
  ∧ jbMessageEndpoint b' = jbMessageEndpoint b
  ∧ pendingRequests b' = pendingRequests b
  ∧ promises b' = promises b.
Proof.
  intros (_ & _ & H3)%reachable_ok Hlive. cbv zeta.
  pose proof (H3 t Hlive) as Hr.
  destruct Hlive as ([cb ms] & Ht & Hcb). cbn in Hcb. subst cb.
  assert (timers (fire t b) = delete t (timers b)) as Htm.
  { unfold fire, connect_begin. rewrite Ht. cbn. by destruct (isConnecting b). }
  split_and!.
  - unfold fire, connect_begin. rewrite Ht. cbn. by destruct (isConnecting b) eqn:E.
  - intros t' (tm & Ht' & Hcb). rewrite Htm in Ht'.
    apply lookup_delete_Some in Ht' as [Hne Ht'].
    assert (reconnectTimer b = Some t') as Hr' by (apply H3; by exists tm).
    congruence.
  - unfold fire, connect_begin. rewrite Ht. cbn. by destruct (isConnecting b).
  - unfold fire, connect_begin. rewrite Ht. cbn. by destruct (isConnecting b).
  - unfold fire, connect_begin. rewrite Ht. cbn. by destruct (isConnecting b).
Qed.

Lemma reconnect_timer_starts_connection_witness :
  let b := run no_parse [ConnectOpened; StreamEnded] new_bridge in
  isConnecting b = false
  ∧ isConnecting (fire 0 b) = true
  ∧ ∀ t', ¬ live_reconnect (fire 0 b) t'.
Proof.
  intros b.
  assert (reachable no_parse b) as Hb by (by eexists).
  assert (live_reconnect b 0) as Hl by (by eexists).
  destruct (reconnect_timer_starts_connection no_parse b 0 Hb Hl) as (H1 & H2 & _).
  split_and!; [reflexivity | exact H1 | exact H2].
Defined.

(** ** The guard of [sendRequest] *)

Section GuardFacts.
Variable JSON_parse : string → option MCPResponse.

(** A queued caller that goes on while the endpoint is known does what a
    new call does. *)
Lemma sendRequest_resume_resolved rand request b :
  endpoint_known (jbMessageEndpoint b) = true →
  sendRequest_resume wait_resolved rand request b
  = (inr (sendRequest rand request b).1, (sendRequest rand request b).2).
Proof.
  intros He. unfold sendRequest_resume, sendRequest. rewrite He.
  by destruct (sendRequest_submit rand request b).
Qed.






End GuardFacts.


